(** * rpaint: action engine, codec, hit-testing and transport of the
    collaborative paint program (src/rpaint/src/{app,models,utils,network}.rs).

    Shallow embedding.  [f32] is IEEE-754 binary32 as specified by
    [SpecFloat] (precision 24, emax 128), with round-to-nearest-even.
    A Rust panic ([Vec::insert] past the end, an out-of-bounds slice index)
    is [None] in the [option] results below. *)

From Stdlib Require Import ZArith Lia Floats.SpecFloat.
From Stdlib Require Import Strings.Byte.
From stdpp Require Import base list sorting.

(* ------------------------------------------------------------------ *)
(** ** f32 *)

Definition f32 := spec_float.

Definition f32_add : f32 -> f32 -> f32 := SFadd 24 128.
Definition f32_sub : f32 -> f32 -> f32 := SFsub 24 128.
Definition f32_mul : f32 -> f32 -> f32 := SFmul 24 128.
Definition f32_div : f32 -> f32 -> f32 := SFdiv 24 128.
Definition f32_eqb : f32 -> f32 -> bool := SFeqb.
Definition f32_ltb : f32 -> f32 -> bool := SFltb.
Definition f32_leb : f32 -> f32 -> bool := SFleb.

(** Integer literal [z as f32]. *)
Definition f32_of_Z (z : Z) : f32 := binary_normalize 24 128 z 0 false.

Definition f32_inf : f32 := S754_infinity false.

(** [f32::clamp]: [if self < min {self = min}; if self > max {self = max}]
    (a NaN goes through unchanged). *)
Definition f32_clamp (v lo hi : f32) : f32 :=
  let v := if f32_ltb v lo then lo else v in
  if f32_ltb hi v then hi else v.

(** The f64 side of [f32::hypot] (libm [hypotf]: special cases, then the
    sum of squares and the square root in binary64, rounded to binary32). *)
Definition f64_of_f32 (v : f32) : spec_float :=
  match v with
  | S754_finite s m e => binary_normalize 53 1024 (cond_Zopp s (Zpos m)) e s
  | _ => v
  end.

Definition f32_of_f64 (v : spec_float) : f32 :=
  match v with
  | S754_finite s m e => binary_normalize 24 128 (cond_Zopp s (Zpos m)) e s
  | _ => v
  end.

Definition is_inf (v : spec_float) : bool :=
  match v with S754_infinity _ => true | _ => false end.

Definition is_nan (v : spec_float) : bool :=
  match v with S754_nan => true | _ => false end.

Definition f32_hypot (a b : f32) : f32 :=
  if is_inf a || is_inf b then S754_infinity false
  else if is_nan a || is_nan b then S754_nan
  else
    let a' := f64_of_f32 a in
    let b' := f64_of_f32 b in
    f32_of_f64 (SFsqrt 53 1024
                  (SFadd 53 1024 (SFmul 53 1024 a' a') (SFmul 53 1024 b' b'))).

(* ------------------------------------------------------------------ *)
(** ** emath: [Pos2], [Vec2] *)

Record Pos2 := mkPos2 { pos_x : f32; pos_y : f32 }.

(** [Pos2 - Pos2 = Vec2]; a [Vec2] is kept as a pair of components. *)
Definition pos_sub (p q : Pos2) : f32 * f32 :=
  (f32_sub (pos_x p) (pos_x q), f32_sub (pos_y p) (pos_y q)).

(** [Vec2::length_sq] and [Vec2::length] ([x.hypot(y)]). *)
Definition length_sq (v : f32 * f32) : f32 :=
  f32_add (f32_mul v.1 v.1) (f32_mul v.2 v.2).
Definition length (v : f32 * f32) : f32 := f32_hypot v.1 v.2.

Definition distance_sq (p q : Pos2) : f32 := length_sq (pos_sub p q).
Definition distance (p q : Pos2) : f32 := length (pos_sub p q).

(** [*p += Vec2::new(dx, dy)] and [*p -= Vec2::new(dx, dy)]. *)
Definition pos_add_vec (p : Pos2) (dx dy : f32) : Pos2 :=
  mkPos2 (f32_add (pos_x p) dx) (f32_add (pos_y p) dy).
Definition pos_sub_vec (p : Pos2) (dx dy : f32) : Pos2 :=
  mkPos2 (f32_sub (pos_x p) dx) (f32_sub (pos_y p) dy).

(* ------------------------------------------------------------------ *)
(** ** utils.rs: [dist_to_segment] *)

Definition dist_to_segment (p a b : Pos2) : f32 :=
  let l2 := distance_sq a b in
  if f32_eqb l2 (f32_of_Z 0) then distance p a
  else
    let t := f32_div
               (f32_add (f32_mul (f32_sub (pos_x p) (pos_x a)) (f32_sub (pos_x b) (pos_x a)))
                        (f32_mul (f32_sub (pos_y p) (pos_y a)) (f32_sub (pos_y b) (pos_y a))))
               l2 in
    distance p (mkPos2
      (f32_add (pos_x a) (f32_mul (f32_clamp t (f32_of_Z 0) (f32_of_Z 1)) (f32_sub (pos_x b) (pos_x a))))
      (f32_add (pos_y a) (f32_mul (f32_clamp t (f32_of_Z 0) (f32_of_Z 1)) (f32_sub (pos_y b) (pos_y a))))).

(* ------------------------------------------------------------------ *)
(** ** models.rs: strokes, actions and the codec *)

(** [egui::Color32]: four bytes, as egui stores them. *)
Record Color32 := mkColor32 { c0 : Byte.byte; c1 : Byte.byte; c2 : Byte.byte; c3 : Byte.byte }.

(** [struct Line { points: Vec<Pos2>, color: Color32, width: f32 }] *)
Record Line := mkLine { points : list Pos2; color : Color32; width : f32 }.

(** [struct SerializableLine { points: Vec<(f32, f32)>, color: u32, width: f32 }] *)
Record SerializableLine := mkSerializableLine
  { s_points : list (f32 * f32); s_color : Z; s_width : f32 }.

(** [enum PaintAction] *)
Inductive PaintAction :=
| Create (new_lines : list SerializableLine)
| Delete (indices : list nat) (lines : list SerializableLine)
| Modify (indices : list nat) (old_lines new_lines : list SerializableLine)
| Move (indices : list nat) (dx dy : f32).

(** [x as u32] for [x : u8], and [x as u8] for [x : u32] (truncation). *)
Definition u32_of_u8 (b : Byte.byte) : Z := Z.of_N (Byte.to_N b).
Definition u8_of_u32 (z : Z) : Byte.byte :=
  match Byte.of_N (Z.to_N (z mod 256)) with Some b => b | None => Byte.x00 end.

(** The colour packing of [From<&Line> for SerializableLine]:
    [(a << 24) | (r << 16) | (g << 8) | b]. *)
Definition pack_argb (r g b a : Byte.byte) : Z :=
  Z.lor (Z.lor (Z.lor (Z.shiftl (u32_of_u8 a) 24) (Z.shiftl (u32_of_u8 r) 16))
               (Z.shiftl (u32_of_u8 g) 8))
        (u32_of_u8 b).

(** The unpacking of [From<&SerializableLine> for Line]: the arguments
    [(r, g, b, a)] handed to [Color32::from_rgba_unmultiplied]. *)
Definition unpack_argb (color : Z) : Byte.byte * Byte.byte * Byte.byte * Byte.byte :=
  (u8_of_u32 (Z.land (Z.shiftr color 16) 255),
   u8_of_u32 (Z.land (Z.shiftr color 8) 255),
   u8_of_u32 (Z.land color 255),
   u8_of_u32 (Z.land (Z.shiftr color 24) 255)).

Section Codec.
(** egui's colour conversions, which the repository calls but does not
    define: [Color32::to_srgba_unmultiplied] and
    [Color32::from_rgba_unmultiplied].  Everything below is stated for
    any such pair. *)
Variable to_srgba_unmultiplied :
  Color32 -> Byte.byte * Byte.byte * Byte.byte * Byte.byte.
Variable from_rgba_unmultiplied :
  Byte.byte -> Byte.byte -> Byte.byte -> Byte.byte -> Color32.

(** [impl From<&Line> for SerializableLine] *)
Definition sline_of_line (line : Line) : SerializableLine :=
  let '(r, g, b, a) := to_srgba_unmultiplied (color line) in
  mkSerializableLine (map (fun p => (pos_x p, pos_y p)) (points line))
                     (pack_argb r g b a) (width line).

(** [impl From<&SerializableLine> for Line] *)
Definition line_of_sline (sline : SerializableLine) : Line :=
  let '(r, g, b, a) := unpack_argb (s_color sline) in
  mkLine (map (fun '(x, y) => mkPos2 x y) (s_points sline))
         (from_rgba_unmultiplied r g b a) (s_width sline).

(* ---------------------------------------------------------------- *)
(** ** app.rs: the drawing store and the history *)

(** [Vec::insert] (panics past the end), [Vec::pop] (nothing on an
    empty vector). *)
Definition vec_insert {A} (i : nat) (v : A) (l : list A) : option (list A) :=
  if i <=? List.length l then Some (take i l ++ v :: drop i l) else None.
Definition vec_pop {A} (l : list A) : list A := take (pred (List.length l)) l.

(** [sort_by] / [sort_by_key]: a stable sort; [before y x] says that [y]
    stays in front of [x]. *)
Fixpoint sort_insert {A} (before : A -> A -> bool) (x : A) (l : list A) : list A :=
  match l with
  | [] => [x]
  | y :: l' => if before y x then y :: sort_insert before x l' else x :: l
  end.
Definition stable_sort {A} (before : A -> A -> bool) (l : list A) : list A :=
  fold_left (fun acc x => sort_insert before x acc) l [].

(** [sorted.sort_by(|a, b| b.cmp(a))] *)
Definition sort_desc (l : list nat) : list nat := stable_sort (fun y x => x <=? y) l.
(** [combined.sort_by_key(|&(&idx, _)| idx)] *)
Definition sort_by_idx {B} (l : list (nat * B)) : list (nat * B) :=
  stable_sort (fun y x => y.1 <=? x.1) l.

(** [for idx in sorted { if idx < self.lines.len() { self.lines.remove(idx); } }] *)
Definition remove_all (sorted : list nat) (lines : list Line) : list Line :=
  fold_left (fun ls idx => if idx <? List.length ls then delete idx ls else ls) sorted lines.

(** [for (&idx, line) in combined { self.lines.insert(idx, Line::from(line)); }] *)
Fixpoint insert_all (combined : list (nat * SerializableLine)) (lines : list Line)
  : option (list Line) :=
  match combined with
  | [] => Some lines
  | (idx, line) :: rest =>
      match vec_insert idx (line_of_sline line) lines with
      | Some ls => insert_all rest ls
      | None => None
      end
  end.

(** [for (i, &idx) in indices.iter().enumerate() {
       if let Some(l) = self.lines.get_mut(idx) { *l = Line::from(&src[i]); } }] *)
Fixpoint replace_loop (i : nat) (indices : list nat) (src : list SerializableLine)
    (lines : list Line) : option (list Line) :=
  match indices with
  | [] => Some lines
  | idx :: rest =>
      match lines !! idx with
      | Some _ =>
          match src !! i with
          | Some nl => replace_loop (S i) rest src (<[idx := line_of_sline nl]> lines)
          | None => None
          end
      | None => replace_loop (S i) rest src lines
      end
  end.

(** [for &idx in indices { if let Some(l) = self.lines.get_mut(idx) {
       for p in &mut l.points { *p op Vec2::new(dx, dy); } } }] *)
Definition translate_line (op : Pos2 -> f32 -> f32 -> Pos2) (dx dy : f32) (l : Line) : Line :=
  mkLine (map (fun p => op p dx dy) (points l)) (color l) (width l).
Definition translate_all (op : Pos2 -> f32 -> f32 -> Pos2) (indices : list nat)
    (dx dy : f32) (lines : list Line) : list Line :=
  fold_left (fun ls idx =>
               match ls !! idx with
               | Some l => <[idx := translate_line op dx dy l]> ls
               | None => ls
               end) indices lines.

(** [PaintApp::apply_action] *)
Definition apply_action (action : PaintAction) (lines : list Line) : option (list Line) :=
  match action with
  | Create new_lines => Some (lines ++ map line_of_sline new_lines)
  | Delete indices _ => Some (remove_all (sort_desc indices) lines)
  | Modify indices _ new_lines => replace_loop 0 indices new_lines lines
  | Move indices dx dy => Some (translate_all pos_add_vec indices dx dy lines)
  end.

(** The inverse applied by [PaintApp::undo] to the popped action. *)
Definition undo_action (action : PaintAction) (lines : list Line) : option (list Line) :=
  match action with
  | Create new_lines => Some (Nat.iter (List.length new_lines) vec_pop lines)
  | Delete indices dlines => insert_all (sort_by_idx (zip indices dlines)) lines
  | Modify indices old_lines _ => replace_loop 0 indices old_lines lines
  | Move indices dx dy => Some (translate_all pos_sub_vec indices dx dy lines)
  end.

(** The fields of [PaintApp] the history engine touches. *)
Record PaintApp := mkPaintApp
  { lines : list Line;
    undo_stack : list PaintAction;   (* top of the stack first *)
    redo_stack : list PaintAction;
    selected_indices : list nat }.

(** [PaintApp::execute] *)
Definition execute (action : PaintAction) (app : PaintApp) : option PaintApp :=
  match apply_action action (lines app) with
  | Some ls => Some (mkPaintApp ls (action :: undo_stack app) [] (selected_indices app))
  | None => None
  end.

(** [PaintApp::undo] *)
Definition undo (app : PaintApp) : option PaintApp :=
  match undo_stack app with
  | [] => Some app
  | action :: rest =>
      match undo_action action (lines app) with
      | Some ls => Some (mkPaintApp ls rest (action :: redo_stack app) [])
      | None => None
      end
  end.

(** [PaintApp::redo] *)
Definition redo (app : PaintApp) : option PaintApp :=
  match redo_stack app with
  | [] => Some app
  | action :: rest =>
      match apply_action action (lines app) with
      | Some ls => Some (mkPaintApp ls (action :: undo_stack app) rest (selected_indices app))
      | None => None
      end
  end.

(** [PaintApp::clear_all] *)
Definition clear_all (app : PaintApp) : option PaintApp :=
  if List.length (lines app) =? 0 then Some app
  else
    let indices := seq 0 (List.length (lines app)) in
    let ls := map sline_of_line (lines app) in
    match execute (Delete indices ls) app with
    | Some app' => Some (mkPaintApp (lines app') (undo_stack app') (redo_stack app') [])
    | None => None
    end.
End Codec.

(* ------------------------------------------------------------------ *)
(** ** network.rs: the transport *)

From Stdlib Require Import Strings.String.

(** [enum DrawingMessage] *)
Inductive DrawingMessage :=
| DrawLine (points : list (f32 * f32)) (color : Z) (width : f32)
| DeleteMsg (indices : list nat)
| ModifyMsg (indices : list nat) (colors : list Z) (widths : list f32)
| MoveMsg (indices : list nat) (delta_x delta_y : f32)
| Clear
| Sync (lines_data : string).

(** [enum NetworkEvent] *)
Inductive NetworkEvent :=
| PeerDiscovered (peer : string)
| PeerExpired (peer : string)
| MessageReceived (msg : DrawingMessage)
| Connected
| Disconnected.

(** Rust's [Result<T, E>]. *)
Inductive result (T E : Type) := Ok (v : T) | Err (e : E).
Arguments Ok {T E} v.
Arguments Err {T E} e.

Definition MULTICAST_ADDR : string := "239.255.77.77".
Definition MULTICAST_PORT : string := "7878".

(** A UDP socket is named by a number; a datagram is kept as
    (socket, payload, destination). *)
Definition UdpSocket := nat.
Definition Datagram := (UdpSocket * string * string)%type.

(** [struct NetworkManager] (the shared [Arc<Mutex<_>>] fields by value). *)
Record NetworkManager := mkNetworkManager
  { connected : bool;
    peer_count : nat;
    sender : option UdpSocket;
    events : list NetworkEvent }.

(** The transport together with every datagram it has put on the wire. *)
Record NetWorld := mkNetWorld { manager : NetworkManager; wire : list Datagram }.

Section Network.
Local Open Scope string_scope.
(** [serde_json::to_string] and the outcome of [UdpSocket::send_to]
    ([Some e] when the OS reports the error [e]); both are library code. *)
Variable to_json : DrawingMessage -> result string string.
Variable send_error : UdpSocket -> string -> string -> option string.

(** [NetworkManager::broadcast_message] *)
Definition broadcast_message (message : DrawingMessage) (w : NetWorld)
  : result unit string * NetWorld :=
  if negb (connected (manager w)) then (Err "Not connected to network", w)
  else
    match sender (manager w) with
    | Some s =>
        match to_json message with
        | Err e => (Err ("Failed to serialize: " ++ e), w)
        | Ok json =>
            let addr := (MULTICAST_ADDR ++ ":" ++ MULTICAST_PORT)%string in
            match send_error s json addr with
            | Some e => (Err ("Failed to send: " ++ e), w)
            | None => (Ok tt, mkNetWorld (manager w) ((s, json, addr) :: wire w))
            end
        end
    | None => (Ok tt, w)
    end.
End Network.

(* ------------------------------------------------------------------ *)
(** ** Concrete instances for evaluation *)

(** A lossless stand-in for the egui colour conversions, used only to run
    the functions above on concrete inputs. *)
Definition plain_to_srgba (c : Color32) := (c0 c, c1 c, c2 c, c3 c).
Definition plain_from_rgba (r g b a : Byte.byte) := mkColor32 r g b a.

Definition pt (a b : Z) : Pos2 := mkPos2 (f32_of_Z a) (f32_of_Z b).

(** A one-point stroke at [(k, 0)], opaque black, width 1, and its
    serialized form. *)
Definition black := mkColor32 Byte.x00 Byte.x00 Byte.x00 Byte.xff.
Definition stroke (k : Z) : Line := mkLine [pt k 0] black (f32_of_Z 1).
Definition sstroke (k : Z) : SerializableLine := sline_of_line plain_to_srgba (stroke k).

Definition app_of (ls : list Line) : PaintApp := mkPaintApp ls [] [] [].

(** A lossy stand-in for [Color32::from_rgba_unmultiplied]: like egui's, it
    sends every colour of alpha 0 to fully transparent black
    ([Color32::TRANSPARENT]) and keeps the four bytes otherwise. *)
Definition transparent_black := mkColor32 Byte.x00 Byte.x00 Byte.x00 Byte.x00.
Definition zero_alpha_from_rgba (r g b a : Byte.byte) : Color32 :=
  match a with Byte.x00 => transparent_black | _ => mkColor32 r g b a end.

(** A one-point stroke at [(k, 0)] whose colour has rgb (10, 20, 30) and
    alpha 0. *)
Definition faint_stroke (k : Z) : Line :=
  mkLine [pt k 0] (mkColor32 Byte.x0a Byte.x14 Byte.x1e Byte.x00) (f32_of_Z 1).

(** Finite (neither infinite nor NaN) f32 values and points. *)
Definition is_finite (v : f32) : bool :=
  match v with S754_zero _ | S754_finite _ _ _ => true | _ => false end.
Definition pos_finite (p : Pos2) : bool := is_finite (pos_x p) && is_finite (pos_y p).

(** A run of [execute a] immediately followed by [undo], for each action of
    the list in turn. *)
Fixpoint execute_undo_pairs from_rgba (actions : list PaintAction) (app : PaintApp)
  : option PaintApp :=
  match actions with
  | [] => Some app
  | a :: rest =>
      match execute from_rgba a app with
      | Some app1 =>
          match undo from_rgba app1 with
          | Some app2 => execute_undo_pairs from_rgba rest app2
          | None => None
          end
      | None => None
      end
  end.

(** An action that is consistent with the store [ls] it is executed on:
    a [Delete] names distinct indices, each with the cached stroke that
    decodes to the stroke stored there; a [Modify] has, for every in-range
    index, a new stroke and an old stroke decoding to the stored one; a
    [Move] names distinct indices, and on each point of a referenced stroke
    subtracting (dx, dy) after adding it gives the point back. *)
Definition wf_action from_rgba (ls : list Line) (a : PaintAction) : Prop :=
  match a with
  | Create _ => True
  | Delete idxs cache =>
      NoDup idxs /\ List.length cache = List.length idxs /\
      (forall k i c, idxs !! k = Some i -> cache !! k = Some c ->
                     ls !! i = Some (line_of_sline from_rgba c))
  | Modify idxs old new =>
      forall k i ln, idxs !! k = Some i -> ls !! i = Some ln ->
        is_Some (new !! k) /\ exists c, old !! k = Some c /\ line_of_sline from_rgba c = ln
  | Move idxs dx dy =>
      NoDup idxs /\
      forall i ln p, i ∈ idxs -> ls !! i = Some ln -> p ∈ points ln ->
        pos_sub_vec (pos_add_vec p dx dy) dx dy = p
  end.

(* ------------------------------------------------------------------ *)
(** ** app.rs: the clipboard and selection commands *)

Section Editing.
Local Open Scope string_scope.
Variable to_srgba_unmultiplied :
  Color32 -> Byte.byte * Byte.byte * Byte.byte * Byte.byte.
Variable from_rgba_unmultiplied :
  Byte.byte -> Byte.byte -> Byte.byte -> Byte.byte -> Color32.
Variable to_json : DrawingMessage -> result string string.
Variable send_error : UdpSocket -> string -> string -> option string.

(** [PaintApp::copy_selected]: the clipboard afterwards. *)
Definition copy_selected (app : PaintApp) (clipboard : list Line) : list Line :=
  match selected_indices app with
  | [] => clipboard
  | sel => omap (fun i => lines app !! i) sel
  end.

(** [PaintApp::paste]: the application and the clipboard afterwards; every
    point is moved by [Vec2::splat(20.0)]. *)
Definition paste (app : PaintApp) (clipboard : list Line) : option (PaintApp * list Line) :=
  match clipboard with
  | [] => Some (app, clipboard)
  | _ =>
      let offset := f32_of_Z 20 in
      let new_lines := map (translate_line pos_add_vec offset offset) clipboard in
      let serialized := map (sline_of_line to_srgba_unmultiplied) new_lines in
      match execute from_rgba_unmultiplied (Create serialized) app with
      | Some app1 =>
          let start_idx := List.length (lines app1) - List.length new_lines in
          Some (mkPaintApp (lines app1) (undo_stack app1) (redo_stack app1)
                  (seq start_idx (List.length (lines app1) - start_idx)), new_lines)
      | None => None
      end
  end.

(** [PaintApp::delete_selected], with the transport it broadcasts on. *)
Definition delete_selected (app : PaintApp) (w : NetWorld) : option (PaintApp * NetWorld) :=
  match selected_indices app with
  | [] => Some (app, w)
  | sel =>
      let indexed := sort_by_idx (omap (fun i => (fun l => (i, l)) <$> lines app !! i) sel) in
      let indices := map fst indexed in
      let cache := map (fun p => sline_of_line to_srgba_unmultiplied p.2) indexed in
      match execute from_rgba_unmultiplied (Delete indices cache) app with
      | Some app1 =>
          let w1 := if connected (manager w)
                    then (broadcast_message to_json send_error (DeleteMsg indices) w).2
                    else w in
          Some (mkPaintApp (lines app1) (undo_stack app1) (redo_stack app1) [], w1)
      | None => None
      end
  end.
End Editing.

(* ------------------------------------------------------------------ *)
(** ** network.rs: connecting, disconnecting and the event queue *)

(** [NetworkManager::new] *)
Definition NetworkManager_new : NetworkManager := mkNetworkManager false 0 None [].

Section Connect.
Local Open Scope string_scope.
(** The outcomes of the socket calls of [connect]: [UdpSocket::bind] on
    ["0.0.0.0:0"] and on ["0.0.0.0:7878"], [set_nonblocking] and
    [join_multicast_v4]; these are the operating system's. *)
Variable bind_sender : result UdpSocket string.
Variable bind_receiver : result UdpSocket string.
Variable set_nonblocking : UdpSocket -> result unit string.
Variable join_multicast_v4 : UdpSocket -> result unit string.

(** [NetworkManager::connect] (the listening thread it spawns on success is
    [receive_datagram] below). *)
Definition connect (m : NetworkManager) : result unit string * NetworkManager :=
  if connected m then (Ok tt, m)
  else
    match bind_sender with
    | Err e => (Err ("Failed to bind sender: " ++ e), m)
    | Ok s =>
        match set_nonblocking s with
        | Err e => (Err ("Failed to set nonblocking: " ++ e), m)
        | Ok _ =>
            match bind_receiver with
            | Err e => (Err ("Failed to bind receiver: " ++ e), m)
            | Ok r =>
                match join_multicast_v4 r with
                | Err e => (Err ("Failed to join multicast: " ++ e), m)
                | Ok _ =>
                    match set_nonblocking r with
                    | Err e => (Err ("Failed to set receiver nonblocking: " ++ e), m)
                    | Ok _ => (Ok tt, mkNetworkManager true (peer_count m) (Some s) (events m))
                    end
                end
            end
        end
    end.
End Connect.

(** [NetworkManager::disconnect] *)
Definition disconnect (m : NetworkManager) : NetworkManager :=
  mkNetworkManager false 0 None (events m).

(** [NetworkManager::poll_events]: the queued events, and the manager with
    the queue drained. *)
Definition poll_events (m : NetworkManager) : list NetworkEvent * NetworkManager :=
  (events m, mkNetworkManager (connected m) (peer_count m) (sender m) []).

(** One turn of the listening thread's loop on a received datagram:
    [from_slice] is [serde_json::from_slice::<DrawingMessage>] and
    [elapsed] says whether more than a second has passed since the last
    peer check. *)
Definition receive_datagram (from_slice : string -> option DrawingMessage)
    (payload : string) (elapsed : bool) (m : NetworkManager) : NetworkManager :=
  match from_slice payload with
  | Some msg =>
      mkNetworkManager (connected m) (if elapsed then 1 else peer_count m) (sender m)
                       (events m ++ [MessageReceived msg])
  | None => m
  end.

(* ------------------------------------------------------------------ *)
(** ** Positions kept by a deletion *)

(** The strokes of [l], its first position numbered [k], whose position is
    not listed in [s], in their order. *)
Fixpoint keep_from (k : nat) (s : list nat) (l : list Line) : list Line :=
  match l with
  | [] => []
  | x :: l' => if decide (k ∈ s) then keep_from (S k) s l' else x :: keep_from (S k) s l'
  end.

(* ================================================================== *)
(** * Properties *)

Open Scope Z_scope.

Lemma u32_of_u8_range (x : Byte.byte) : 0 <= u32_of_u8 x < 256.
Proof. unfold u32_of_u8. pose proof (Byte.to_N_bounded x). lia. Qed.

Lemma u8_bits_high (x : Byte.byte) (m : Z) : 8 <= m -> Z.testbit (u32_of_u8 x) m = false.
Proof.
  intros Hm. pose proof (u32_of_u8_range x) as Hr.
  rewrite <- (Z.mod_small (u32_of_u8 x) (2 ^ 8)) by (simpl; lia).
  apply Z.mod_pow2_bits_high. lia.
Qed.

Lemma u8_of_u32_of_u8 (x : Byte.byte) : u8_of_u32 (u32_of_u8 x) = x.
Proof.
  unfold u8_of_u32, u32_of_u8. pose proof (Byte.to_N_bounded x).
  rewrite Z.mod_small by lia. rewrite N2Z.id, Byte.of_to_N. reflexivity.
Qed.

Lemma testbit_255 (n : Z) : 0 <= n -> Z.testbit 255 n = (n <? 8).
Proof.
  intros Hn. change 255 with (Z.ones 8).
  destruct (Z.ltb_spec n 8).
  - apply Z.ones_spec_low. lia.
  - apply Z.ones_spec_high. lia.
Qed.

Ltac byte_bits :=
  apply Z.bits_inj'; intros n Hn;
  repeat first [ rewrite Z.land_spec | rewrite Z.lor_spec
               | rewrite Z.shiftr_spec by lia | rewrite Z.shiftl_spec by lia
               | rewrite testbit_255 by lia ];
  destruct (Z.ltb_spec n 8);
  repeat match goal with
  | |- context [Z.testbit (u32_of_u8 ?x) ?m] =>
      first [ rewrite (Z.testbit_neg_r (u32_of_u8 x) m) by lia
            | rewrite (u8_bits_high x m) by lia
            | (tryif constr_eq m n then fail else replace m with n by lia) ]
  end;
  rewrite ?Bool.orb_false_l, ?Bool.orb_false_r, ?Bool.andb_true_r, ?Bool.andb_false_r;
  reflexivity.

Lemma unpack_pack_r (r g b a : Byte.byte) :
  Z.land (Z.shiftr (pack_argb r g b a) 16) 255 = u32_of_u8 r.
Proof. unfold pack_argb. byte_bits. Qed.

Lemma unpack_pack_g (r g b a : Byte.byte) :
  Z.land (Z.shiftr (pack_argb r g b a) 8) 255 = u32_of_u8 g.
Proof. unfold pack_argb. byte_bits. Qed.

Lemma unpack_pack_b (r g b a : Byte.byte) :
  Z.land (pack_argb r g b a) 255 = u32_of_u8 b.
Proof. unfold pack_argb. byte_bits. Qed.

Lemma unpack_pack_a (r g b a : Byte.byte) :
  Z.land (Z.shiftr (pack_argb r g b a) 24) 255 = u32_of_u8 a.
Proof. unfold pack_argb. byte_bits. Qed.

Ltac disjoint_bits :=
  apply Z.bits_inj'; intros n Hn; rewrite Z.bits_0;
  repeat first [ rewrite Z.land_spec | rewrite Z.lor_spec | rewrite Z.shiftl_spec by lia ];
  assert (n < 8 \/ 8 <= n < 16 \/ 16 <= n < 24 \/ 24 <= n) as Hc by lia;
  destruct Hc as [Hc|[Hc|[Hc|Hc]]];
  repeat match goal with
  | |- context [Z.testbit (u32_of_u8 ?x) ?m] =>
      first [ rewrite (Z.testbit_neg_r (u32_of_u8 x) m) by lia
            | rewrite (u8_bits_high x m) by lia ]
  end;
  rewrite ?Bool.orb_false_l, ?Bool.orb_false_r, ?Bool.andb_false_l, ?Bool.andb_false_r;
  reflexivity.

Lemma pack_argb_layout (r g b a : Byte.byte) :
  pack_argb r g b a =
  u32_of_u8 a * 2 ^ 24 + u32_of_u8 r * 2 ^ 16 + u32_of_u8 g * 2 ^ 8 + u32_of_u8 b.
Proof.
  unfold pack_argb.
  rewrite <- !Z.add_nocarry_lor by disjoint_bits.
  rewrite !Z.shiftl_mul_pow2 by lia. reflexivity.
Qed.

Lemma unpack_pack (r g b a : Byte.byte) : unpack_argb (pack_argb r g b a) = (r, g, b, a).
Proof.
  unfold unpack_argb.
  rewrite unpack_pack_r, unpack_pack_g, unpack_pack_b, unpack_pack_a, !u8_of_u32_of_u8.
  reflexivity.
Qed.

Lemma points_roundtrip (ps : list Pos2) :
  map (fun '(x, y) => mkPos2 x y) (map (fun p => (pos_x p, pos_y p)) ps) = ps.
Proof. induction ps as [|[px py] ps IH]; simpl; [reflexivity | now rewrite IH]. Qed.

(** C6.  The colour is packed as [a << 24 | r << 16 | g << 8 | b] (alpha in
    the highest byte, then red, green, blue); unpacking returns the four
    channels unchanged for every byte quadruple, in particular for
    (255, 0, 0, 128); encoding a stroke and decoding it hands back its
    point sequence unchanged and passes exactly the channels read from the
    stroke's colour to [from_rgba_unmultiplied]. *)
Theorem codec_roundtrip :
  (forall r g b a, pack_argb r g b a =
     u32_of_u8 a * 2 ^ 24 + u32_of_u8 r * 2 ^ 16 + u32_of_u8 g * 2 ^ 8 + u32_of_u8 b) /\
  (forall r g b a, unpack_argb (pack_argb r g b a) = (r, g, b, a)) /\
  unpack_argb (pack_argb Byte.xff Byte.x00 Byte.x00 Byte.x80)
    = (Byte.xff, Byte.x00, Byte.x00, Byte.x80) /\
  (forall to_srgba from_rgba (l : Line),
     line_of_sline from_rgba (sline_of_line to_srgba l) =
     mkLine (points l)
            (let '(r, g, b, a) := to_srgba (color l) in from_rgba r g b a)
            (width l)).
Proof.
  split; [exact pack_argb_layout|].
  split; [exact unpack_pack|].
  split; [apply unpack_pack|].
  intros to_srgba from_rgba [ps c w]. unfold sline_of_line, line_of_sline. simpl.
  destruct (to_srgba c) as [[[r g] b] a]. cbn [s_color s_points s_width].
  rewrite unpack_pack_r, unpack_pack_g, unpack_pack_b, unpack_pack_a, !u8_of_u32_of_u8,
    points_roundtrip.
  reflexivity.
Qed.

(** ** Hit-testing *)

Lemma f32_sub_self (v : f32) : is_finite v = true -> f32_sub v v = S754_zero false.
Proof.
  destruct v as [s|s| |s m e]; simpl; try discriminate; intros _.
  - destruct s; reflexivity.
  - unfold f32_sub, SFsub. rewrite Z.min_id. unfold shl_align. rewrite Z.sub_diag.
    simpl. reflexivity.
Qed.

Lemma dist_to_segment_degenerate (p a : Pos2) :
  pos_finite a = true -> dist_to_segment p a a = distance p a.
Proof.
  unfold pos_finite. intros [Hx Hy]%andb_prop.
  unfold dist_to_segment, distance_sq, pos_sub.
  rewrite (f32_sub_self _ Hx), (f32_sub_self _ Hy). reflexivity.
Qed.

(** C7 (as stated, refuted).  Two coincident endpoints at (+inf, 0): the
    squared length is NaN, not 0, so the degenerate branch is not taken and
    the result is NaN, while the distance from (0,0) to that point is +inf. *)
Lemma dist_to_segment_infinite_endpoint :
  let a := mkPos2 f32_inf (f32_of_Z 0) in
  dist_to_segment (pt 0 0) a a = S754_nan /\ distance (pt 0 0) a = f32_inf.
Proof. vm_compute. split; reflexivity. Qed.

(** C7 (amended).  For the segment (0,0)-(10,0) the query point (5,3) is at
    distance exactly 3 and (15,0), clamped to the endpoint (10,0), at exactly
    5; a segment whose two endpoints are the same point with finite
    coordinates yields the distance to that point. *)
Theorem dist_to_segment_spec :
  dist_to_segment (pt 5 3) (pt 0 0) (pt 10 0) = f32_of_Z 3 /\
  dist_to_segment (pt 15 0) (pt 0 0) (pt 10 0) = f32_of_Z 5 /\
  (forall p a, pos_finite a = true -> dist_to_segment p a a = distance p a).
Proof.
  split; [vm_compute; reflexivity|].
  split; [vm_compute; reflexivity|].
  exact dist_to_segment_degenerate.
Qed.

Lemma dist_to_segment_spec_witness :
  pos_finite (pt 2 7) = true /\ dist_to_segment (pt 0 0) (pt 2 7) (pt 2 7) = distance (pt 0 0) (pt 2 7).
Proof.
  split; [vm_compute; reflexivity|].
  apply (proj2 (proj2 dist_to_segment_spec)). vm_compute. reflexivity.
Defined.

Close Scope Z_scope.

(** ** Transport *)

(** C8.  While the transport is not connected, [broadcast_message] returns
    the error "Not connected to network" and leaves the whole world as it
    was: connected flag, sender socket, peer count, event inbox, and no
    datagram added to the wire. *)
Theorem broadcast_when_disconnected :
  forall to_json send_error (message : DrawingMessage) (w : NetWorld),
  connected (manager w) = false ->
  broadcast_message to_json send_error message w = (Err "Not connected to network"%string, w).
Proof.
  intros to_json send_error message [[c pc s ev] wr] Hc. simpl in Hc. subst c.
  reflexivity.
Qed.

Lemma broadcast_when_disconnected_witness :
  let w := mkNetWorld (mkNetworkManager false 0 (Some 3) []) [] in
  connected (manager w) = false /\
  broadcast_message (fun _ => Ok "{}"%string) (fun _ _ _ => None) Clear w
    = (Err "Not connected to network"%string, w).
Proof.
  split; [reflexivity|].
  apply broadcast_when_disconnected. reflexivity.
Defined.

(** ** History *)

(** C9.  [undo] on an empty undo stack and [redo] on an empty redo stack
    return the application unchanged: strokes, both stacks and the
    selection. *)
Theorem undo_redo_on_empty_history :
  forall from_rgba (app : PaintApp),
  (undo_stack app = [] -> undo from_rgba app = Some app) /\
  (redo_stack app = [] -> redo from_rgba app = Some app).
Proof.
  intros from_rgba app. unfold undo, redo.
  split; intros H; rewrite H; reflexivity.
Qed.

Lemma undo_redo_on_empty_history_witness :
  let app := mkPaintApp [stroke 1] [] [] [0] in
  undo plain_from_rgba app = Some app /\ redo plain_from_rgba app = Some app.
Proof.
  split; apply (undo_redo_on_empty_history plain_from_rgba); reflexivity.
Defined.

(** C5.  Every successful [execute] leaves the redo stack empty; so after
    [execute a1] then [execute a2], [redo] changes nothing (strokes, both
    stacks, selection); and a successful [redo] removes exactly the top
    entry of the redo stack. *)
Theorem execute_clears_redo_stack :
  forall from_rgba,
  (forall a app app', execute from_rgba a app = Some app' -> redo_stack app' = []) /\
  (forall a1 a2 app app1 app2,
     execute from_rgba a1 app = Some app1 -> execute from_rgba a2 app1 = Some app2 ->
     redo from_rgba app2 = Some app2) /\
  (forall app app' r rs,
     redo_stack app = r :: rs -> redo from_rgba app = Some app' -> redo_stack app' = rs).
Proof.
  intros from_rgba.
  assert (Hex : forall a app app', execute from_rgba a app = Some app' -> redo_stack app' = []).
  { intros a app app'. unfold execute.
    destruct (apply_action from_rgba a (lines app)); intros H; inversion H; reflexivity. }
  split; [exact Hex|]. split.
  - intros a1 a2 app app1 app2 _ H2. unfold redo. rewrite (Hex _ _ _ H2). reflexivity.
  - intros app app' r rs Hr. unfold redo. rewrite Hr.
    destruct (apply_action from_rgba r (lines app)); intros H; inversion H; reflexivity.
Qed.

Lemma execute_clears_redo_stack_witness :
  let app := mkPaintApp [stroke 1] [] [Create [sstroke 9]] [] in
  exists app1 app2,
    execute plain_from_rgba (Create [sstroke 2]) app = Some app1 /\
    execute plain_from_rgba (Move [0] (f32_of_Z 1) (f32_of_Z 1)) app1 = Some app2 /\
    redo_stack app1 = [] /\ redo plain_from_rgba app2 = Some app2.
Proof.
  simpl. eexists. eexists. split; [reflexivity|]. split; [reflexivity|].
  split.
  - apply (proj1 (execute_clears_redo_stack plain_from_rgba) (Create [sstroke 2])
             (mkPaintApp [stroke 1] [] [Create [sstroke 9]] [])). reflexivity.
  - eapply (proj1 (proj2 (execute_clears_redo_stack plain_from_rgba)) (Create [sstroke 2])
             (Move [0] (f32_of_Z 1) (f32_of_Z 1))
             (mkPaintApp [stroke 1] [] [Create [sstroke 9]] [])); reflexivity.
Defined.

(** C4.  On a store of at least four strokes, [execute (Delete [3;1] [c3;c1])]
    with the cached strokes decoding to the strokes at positions 3 and 1
    removes exactly those two strokes, and the following [undo] puts them
    back at positions 1 and 3, giving back the whole original store; listing
    the indices as [1;3] (with the cache in the same order) gives the same
    two stores. *)
Theorem delete_undo_symmetry :
  forall from_rgba (l0 l1 l2 l3 : Line) (rest : list Line) (c1 c3 : SerializableLine)
         (app : PaintApp),
  lines app = l0 :: l1 :: l2 :: l3 :: rest ->
  line_of_sline from_rgba c1 = l1 -> line_of_sline from_rgba c3 = l3 ->
  forall idxs cache, (idxs, cache) = ([3; 1], [c3; c1]) \/ (idxs, cache) = ([1; 3], [c1; c3]) ->
  exists app1 app2,
    execute from_rgba (Delete idxs cache) app = Some app1 /\
    lines app1 = l0 :: l2 :: rest /\
    undo from_rgba app1 = Some app2 /\
    lines app2 = l0 :: l1 :: l2 :: l3 :: rest.
Proof.
  intros from_rgba l0 l1 l2 l3 rest c1 c3 [ls us rs sel] Hls H1 H3 idxs cache Hic.
  simpl in Hls. subst ls.
  destruct Hic as [Hic|Hic]; injection Hic as -> ->;
    do 2 eexists; repeat split; cbn -[line_of_sline]; rewrite ?take_0, ?drop_0;
    simpl; rewrite ?H1, ?H3; reflexivity.
Qed.

Lemma delete_undo_symmetry_witness :
  exists app1 app2,
    execute plain_from_rgba (Delete [3; 1] [sstroke 3; sstroke 1])
      (app_of [stroke 0; stroke 1; stroke 2; stroke 3; stroke 4]) = Some app1 /\
    lines app1 = [stroke 0; stroke 2; stroke 4] /\
    undo plain_from_rgba app1 = Some app2 /\
    lines app2 = [stroke 0; stroke 1; stroke 2; stroke 3; stroke 4].
Proof.
  apply (delete_undo_symmetry plain_from_rgba (stroke 0) (stroke 1) (stroke 2) (stroke 3)
           [stroke 4] (sstroke 1) (sstroke 3)); try (vm_compute; reflexivity).
  left; reflexivity.
Defined.

(** ** Sorting *)

Section StableSort.
Context {A : Type} (before : A -> A -> bool).
Hypothesis before_total : forall x y, before x y = false -> before y x = true.

Lemma sort_insert_perm (x : A) (l : list A) : sort_insert before x l ≡ₚ x :: l.
Proof.
  induction l as [|y l IH]; simpl; [reflexivity|].
  destruct (before y x); [|reflexivity].
  rewrite IH. apply Permutation_swap.
Qed.

Lemma stable_sort_perm (l : list A) : stable_sort before l ≡ₚ l.
Proof.
  unfold stable_sort.
  assert (H : forall acc, fold_left (fun acc x => sort_insert before x acc) l acc ≡ₚ acc ++ l).
  { induction l as [|x l IH]; intros acc; simpl; [by rewrite app_nil_r|].
    rewrite IH, sort_insert_perm. simpl. apply Permutation_middle. }
  apply H.
Qed.

Let R x y := before x y = true.

Lemma sort_insert_sorted (x : A) (l : list A) : Sorted R l -> Sorted R (sort_insert before x l).
Proof.
  induction 1 as [|y l Hl IH Hhd]; simpl; [repeat constructor|].
  destruct (before y x) eqn:Hyx.
  - constructor; [exact IH|].
    destruct l as [|z l]; simpl; [constructor; exact Hyx|].
    inversion Hhd; subst. destruct (before z x); constructor; assumption.
  - constructor; [constructor; assumption|]. constructor. apply before_total. exact Hyx.
Qed.

Lemma stable_sort_sorted (l : list A) : Sorted R (stable_sort before l).
Proof.
  unfold stable_sort.
  assert (H : forall acc, Sorted R acc ->
                Sorted R (fold_left (fun acc x => sort_insert before x acc) l acc)).
  { induction l as [|x l IH]; intros acc Hacc; simpl; [exact Hacc|].
    apply IH, sort_insert_sorted, Hacc. }
  apply H. constructor.
Qed.
End StableSort.

Lemma Sorted_weaken {A} (R1 R2 : relation A) (l : list A) :
  (forall x y, R1 x y -> R2 x y) -> Sorted R1 l -> Sorted R2 l.
Proof.
  intros HR. induction 1 as [|x l Hl IH Hhd]; constructor; [exact IH|].
  destruct Hhd; constructor. apply HR. assumption.
Qed.

Lemma sort_desc_perm (l : list nat) : sort_desc l ≡ₚ l.
Proof. apply stable_sort_perm. Qed.

Lemma sort_desc_sorted (l : list nat) : Sorted ge (sort_desc l).
Proof.
  eapply Sorted_weaken; [|apply (stable_sort_sorted (fun y x => x <=? y))].
  - intros x y H. simpl in H. apply Nat.leb_le in H. lia.
  - intros x y H. apply Nat.leb_gt in H. apply Nat.leb_le. lia.
Qed.

Lemma sort_by_idx_perm {B} (l : list (nat * B)) : sort_by_idx l ≡ₚ l.
Proof. apply stable_sort_perm. Qed.

Lemma sort_by_idx_sorted {B} (l : list (nat * B)) :
  Sorted (fun p q => p.1 <= q.1) (sort_by_idx l).
Proof.
  eapply Sorted_weaken; [|apply (stable_sort_sorted (fun y x => y.1 <=? x.1))].
  - intros x y H. simpl in H. apply Nat.leb_le in H. lia.
  - intros x y H. apply Nat.leb_gt in H. apply Nat.leb_le. lia.
Qed.

(** ** Removing and re-inserting strokes *)

Lemma vec_insert_delete {A} (l : list A) (m : nat) (x : A) :
  l !! m = Some x -> vec_insert m x (delete m l) = Some l.
Proof.
  intros Hm. unfold vec_insert.
  assert (m < List.length l) by (apply lookup_lt_Some in Hm; exact Hm).
  rewrite length_delete by (rewrite Hm; eexists; reflexivity).
  destruct (Nat.leb_spec m (List.length l - 1)); [|lia].
  rewrite delete_take_drop.
  assert (Ht : List.length (take m l) = m) by (rewrite length_take; lia).
  rewrite take_app_length' by lia. rewrite drop_app_length' by lia.
  rewrite take_drop_middle by exact Hm. reflexivity.
Qed.

Lemma insert_all_app from_rgba (Q1 Q2 : list (nat * SerializableLine)) (l : list Line) :
  insert_all from_rgba (Q1 ++ Q2) l = insert_all from_rgba Q1 l ≫= insert_all from_rgba Q2.
Proof.
  revert l. induction Q1 as [|[i c] Q1 IH]; intros l; simpl; [reflexivity|].
  destruct (vec_insert i _ l); [apply IH|reflexivity].
Qed.

Lemma remove_all_cons (i : nat) (s : list nat) (l : list Line) :
  remove_all (i :: s) l = remove_all s (if i <? List.length l then delete i l else l).
Proof. reflexivity. Qed.

(** Removing the keys of [Q] from the largest down and inserting the pairs of
    [Q] from the smallest up gives the store back, when [Q] holds exactly the
    strokes stored at its (distinct) keys. *)
Lemma insert_all_remove_all from_rgba (Q : list (nat * SerializableLine)) (l : list Line) :
  StronglySorted (fun p q => p.1 < q.1) Q ->
  (forall i c, (i, c) ∈ Q -> l !! i = Some (line_of_sline from_rgba c)) ->
  insert_all from_rgba Q (remove_all (rev (map fst Q)) l) = Some l.
Proof.
  revert l. induction Q as [|[m c] Q IH] using rev_ind; intros l Hs Hin; [reflexivity|].
  apply StronglySorted_app in Hs as (Hlt & HsQ & _).
  assert (Hm : l !! m = Some (line_of_sline from_rgba c))
    by (apply Hin; apply elem_of_app; right; left).
  rewrite map_app, rev_app_distr. simpl.
  assert (Hmlt : m < List.length l) by (apply lookup_lt_Some in Hm; exact Hm).
  destruct (Nat.ltb_spec m (List.length l)); [|lia].
  rewrite insert_all_app, IH.
  - simpl. rewrite vec_insert_delete by exact Hm. reflexivity.
  - exact HsQ.
  - intros i c' Hic. rewrite list_lookup_delete_lt.
    + apply Hin. apply elem_of_app. left. exact Hic.
    + apply (Hlt (i, c') (m, c)); [exact Hic | left].
Qed.

#[local] Instance ge_nat_transitive : Transitive ge.
Proof. intros x y z; lia. Qed.

Lemma map_fst_zip {A B} (l : list A) (k : list B) :
  List.length l = List.length k -> map fst (zip l k) = l.
Proof.
  revert k. induction l as [|x l IH]; intros [|y k] Hlen; simpl in *; try lia; [reflexivity|].
  f_equal. apply IH. lia.
Qed.

Lemma sorted_keys_strict {B} (Q : list (nat * B)) :
  Sorted (fun p q => p.1 <= q.1) Q -> NoDup (map fst Q) ->
  StronglySorted (fun p q => p.1 < q.1) Q.
Proof.
  intros Hs Hnd. apply Sorted.Sorted_StronglySorted in Hs; [|intros x y z; lia].
  induction Hs as [|p Q Hs IH Hall]; constructor.
  - apply IH. simpl in Hnd. inversion Hnd; assumption.
  - simpl in Hnd. inversion Hnd as [|? ? Hnotin _]; subst.
    rewrite Forall_forall in Hall |- *. intros q Hq.
    specialize (Hall q Hq).
    assert (p.1 <> q.1); [|lia].
    intros Heq. apply Hnotin. rewrite Heq. apply list_elem_of_In, in_map, list_elem_of_In, Hq.
Qed.

Lemma rev_sorted_ge (l : list nat) : Sorted le l -> Sorted ge (rev l).
Proof.
  intros Hs. apply Sorted_reverse in Hs. unfold reverse in Hs. rewrite <- rev_alt in Hs.
  eapply Sorted_weaken; [|exact Hs]. intros x y H. exact H.
Qed.

(** The Delete branch of [undo_action] inverts the Delete branch of
    [apply_action] on a consistent action. *)
Lemma delete_undo_restores from_rgba (l : list Line) (idxs : list nat)
    (cache : list SerializableLine) :
  NoDup idxs -> List.length cache = List.length idxs ->
  (forall k i c, idxs !! k = Some i -> cache !! k = Some c ->
                 l !! i = Some (line_of_sline from_rgba c)) ->
  undo_action from_rgba (Delete idxs cache) (remove_all (sort_desc idxs) l) = Some l.
Proof.
  intros Hnd Hlen Hc. simpl.
  set (Q := sort_by_idx (zip idxs cache)).
  assert (HQp : Q ≡ₚ zip idxs cache) by apply sort_by_idx_perm.
  assert (HkQ : map fst Q ≡ₚ idxs).
  { rewrite <- (map_fst_zip idxs cache) by lia. apply Permutation_map, HQp. }
  assert (HndQ : NoDup (map fst Q)) by (rewrite HkQ; exact Hnd).
  assert (HsQ : StronglySorted (fun p q => p.1 < q.1) Q)
    by (apply sorted_keys_strict; [apply sort_by_idx_sorted | exact HndQ]).
  assert (Hdesc : sort_desc idxs = rev (map fst Q)).
  { apply (Sorted_unique_strong ge).
    - intros x1 x2 _ _ H1 H2. unfold ge in *. lia.
    - apply sort_desc_sorted.
    - apply rev_sorted_ge.
      apply (Sorted_fmap fst (fun p q => p.1 <= q.1) le); [intros x y H; exact H|].
      apply sort_by_idx_sorted.
    - rewrite sort_desc_perm, <- Permutation_rev, HkQ. reflexivity. }
  rewrite Hdesc. apply insert_all_remove_all; [exact HsQ|].
  intros i c Hic. rewrite HQp in Hic.
  apply list_elem_of_lookup in Hic as [k Hk]. apply lookup_zip_Some in Hk as [Hi Hc'].
  eapply Hc; eassumption.
Qed.

(** ** In-place replacement (Modify) *)

Lemma replace_loop_success from_rgba (i : nat) (idxs : list nat)
    (src : list SerializableLine) (l : list Line) :
  (forall k j, idxs !! k = Some j -> j < List.length l -> is_Some (src !! (i + k))) ->
  exists l1, replace_loop from_rgba i idxs src l = Some l1 /\
    List.length l1 = List.length l /\ (forall j, j ∉ idxs -> l1 !! j = l !! j).
Proof.
  revert i l. induction idxs as [|idx rest IH]; intros i l Hsrc; simpl.
  - exists l. split; [reflexivity|]. split; [reflexivity|]. intros; reflexivity.
  - destruct (l !! idx) as [ln|] eqn:Hl.
    + assert (Hlt : idx < List.length l) by (apply lookup_lt_Some in Hl; exact Hl).
      destruct (Hsrc 0 idx eq_refl Hlt) as [nl Hnl]. rewrite Nat.add_0_r in Hnl.
      rewrite Hnl.
      destruct (IH (S i) (<[idx := line_of_sline from_rgba nl]> l)) as (l1 & H1 & Hlen & Hfr).
      { intros k j Hk Hj. rewrite length_insert in Hj.
        replace (S i + k) with (i + S k) by lia. apply (Hsrc (S k) j Hk Hj). }
      exists l1. split; [exact H1|]. split; [rewrite Hlen, length_insert; reflexivity|].
      intros j Hj. rewrite Hfr by (intros Hin; apply Hj; right; exact Hin).
      apply list_lookup_insert_ne. intros ->. apply Hj. left.
    + destruct (IH (S i) l) as (l1 & H1 & Hlen & Hfr).
      { intros k j Hk Hj. replace (S i + k) with (i + S k) by lia.
        apply (Hsrc (S k) j Hk Hj). }
      exists l1. split; [exact H1|]. split; [exact Hlen|].
      intros j Hj. apply Hfr. intros Hin. apply Hj. right. exact Hin.
Qed.

Lemma replace_loop_restore from_rgba (i : nat) (idxs : list nat)
    (src : list SerializableLine) (l0 l : list Line) :
  List.length l = List.length l0 ->
  (forall j, j ∉ idxs -> l !! j = l0 !! j) ->
  (forall k j ln, idxs !! k = Some j -> l0 !! j = Some ln ->
     exists c, src !! (i + k) = Some c /\ line_of_sline from_rgba c = ln) ->
  replace_loop from_rgba i idxs src l = Some l0.
Proof.
  revert i l. induction idxs as [|idx rest IH]; intros i l Hlen Hfr Hsrc; simpl.
  - f_equal. apply list_eq. intros j. apply Hfr. intros Hin. inversion Hin.
  - destruct (l !! idx) as [ln|] eqn:Hl.
    + assert (Hlt : idx < List.length l0)
        by (rewrite <- Hlen; apply lookup_lt_Some in Hl; exact Hl).
      destruct (lookup_lt_is_Some_2 l0 idx Hlt) as [ln0 Hl0].
      destruct (Hsrc 0 idx ln0 eq_refl Hl0) as (c & Hc & Hcl).
      rewrite Nat.add_0_r in Hc. rewrite Hc.
      apply IH.
      * rewrite length_insert. exact Hlen.
      * intros j Hj. destruct (decide (j = idx)) as [->|Hne].
        -- rewrite list_lookup_insert_eq by lia. rewrite Hcl, Hl0. reflexivity.
        -- rewrite list_lookup_insert_ne by congruence. apply Hfr.
           intros Hin. inversion Hin; subst; [congruence|contradiction].
      * intros k j ln' Hk Hj. replace (S i + k) with (i + S k) by lia.
        apply (Hsrc (S k) j ln' Hk Hj).
    + apply IH.
      * exact Hlen.
      * intros j Hj. destruct (decide (j = idx)) as [->|Hne].
        -- rewrite Hl. symmetry. apply lookup_ge_None_2.
           apply lookup_ge_None_1 in Hl. lia.
        -- apply Hfr. intros Hin. inversion Hin; subst; [congruence|contradiction].
      * intros k j ln' Hk Hj. replace (S i + k) with (i + S k) by lia.
        apply (Hsrc (S k) j ln' Hk Hj).
Qed.

(** ** Translation (Move) *)

Lemma translate_all_cons op (idx : nat) (rest : list nat) dx dy (l : list Line) :
  translate_all op (idx :: rest) dx dy l =
  translate_all op rest dx dy
    (match l !! idx with Some ln => <[idx := translate_line op dx dy ln]> l | None => l end).
Proof. reflexivity. Qed.

Lemma translate_step_lookup op (idx j : nat) dx dy (l : list Line) :
  (match l !! idx with Some ln => <[idx := translate_line op dx dy ln]> l | None => l end) !! j =
  if decide (j = idx) then translate_line op dx dy <$> l !! idx else l !! j.
Proof.
  destruct (decide (j = idx)) as [->|Hne].
  - destruct (l !! idx) as [ln|] eqn:Hl; simpl; [|exact Hl].
    apply list_lookup_insert_eq. apply lookup_lt_Some in Hl. exact Hl.
  - destruct (l !! idx); [|reflexivity]. apply list_lookup_insert_ne. congruence.
Qed.

Lemma translate_all_lookup op (idxs : list nat) dx dy (l : list Line) (j : nat) :
  NoDup idxs ->
  translate_all op idxs dx dy l !! j =
  if decide (j ∈ idxs) then translate_line op dx dy <$> l !! j else l !! j.
Proof.
  revert l. induction idxs as [|idx rest IH]; intros l Hnd.
  - reflexivity.
  - apply NoDup_cons in Hnd as [Hnotin Hnd].
    rewrite translate_all_cons, IH by exact Hnd.
    rewrite !translate_step_lookup.
    destruct (decide (j = idx)) as [->|Hne].
    + rewrite decide_False by exact Hnotin. rewrite decide_True by (left).
      reflexivity.
    + destruct (decide (j ∈ rest)) as [Hin|Hout].
      * rewrite decide_True by (right; exact Hin). reflexivity.
      * rewrite decide_False; [reflexivity|].
        intros Hin. apply elem_of_cons in Hin as [?|?]; contradiction.
Qed.

Lemma move_undo_restores (idxs : list nat) dx dy (l : list Line) :
  NoDup idxs ->
  (forall i ln p, i ∈ idxs -> l !! i = Some ln -> p ∈ points ln ->
     pos_sub_vec (pos_add_vec p dx dy) dx dy = p) ->
  translate_all pos_sub_vec idxs dx dy (translate_all pos_add_vec idxs dx dy l) = l.
Proof.
  intros Hnd Hp. apply list_eq. intros j.
  rewrite !translate_all_lookup by exact Hnd.
  destruct (decide (j ∈ idxs)) as [Hin|]; [|reflexivity].
  destruct (l !! j) as [ln|] eqn:Hl; [|reflexivity]. simpl. f_equal.
  destruct ln as [ps c w]. unfold translate_line. simpl. f_equal.
  rewrite map_map. rewrite <- (map_id ps) at 2. apply map_ext_in.
  intros p Hpin. apply (Hp j _ p Hin Hl). simpl. apply list_elem_of_In, Hpin.
Qed.

(** ** Appending and popping (Create) *)

Lemma iter_pop_app {A} (l xs : list A) : Nat.iter (List.length xs) vec_pop (l ++ xs) = l.
Proof.
  induction xs as [|x xs IH] using rev_ind; simpl; [apply app_nil_r|].
  rewrite length_app. simpl. rewrite Nat.add_1_r, Nat.iter_succ_r.
  unfold vec_pop at 2. rewrite app_assoc, length_app. simpl.
  rewrite Nat.add_1_r. simpl. rewrite take_app_length. exact IH.
Qed.

(** ** Round trip of one execute/undo pair *)

Lemma execute_undo_restores from_rgba (a : PaintAction) (app : PaintApp) :
  wf_action from_rgba (lines app) a ->
  exists app1 app2, execute from_rgba a app = Some app1 /\
    undo from_rgba app1 = Some app2 /\ lines app2 = lines app.
Proof.
  destruct app as [l us rs sel]. simpl. intros Hwf.
  unfold execute, undo. simpl.
  destruct a as [news | idxs cache | idxs old new | idxs dx dy]; simpl in Hwf.
  - do 2 eexists. split; [reflexivity|]. simpl.
    rewrite <- (length_map (line_of_sline from_rgba) news), iter_pop_app.
    split; reflexivity.
  - destruct Hwf as (Hnd & Hlen & Hc).
    do 2 eexists. split; [reflexivity|]. simpl.
    pose proof (delete_undo_restores from_rgba l idxs cache Hnd Hlen Hc) as Hu.
    simpl in Hu. rewrite Hu. split; reflexivity.
  - destruct (replace_loop_success from_rgba 0 idxs new l) as (l1 & H1 & Hlen & Hfr).
    { intros k j Hk Hj. destruct (lookup_lt_is_Some_2 l j Hj) as [ln Hln].
      apply (Hwf k j ln Hk Hln). }
    simpl. rewrite H1. do 2 eexists. split; [reflexivity|]. simpl.
    rewrite (replace_loop_restore from_rgba 0 idxs old l l1 Hlen Hfr).
    + split; reflexivity.
    + intros k j ln Hk Hln. apply (Hwf k j ln Hk Hln).
  - destruct Hwf as (Hnd & Hp).
    do 2 eexists. split; [reflexivity|]. simpl.
    rewrite move_undo_restores by assumption. split; reflexivity.
Qed.

(** C2 (amended).  For every starting application and every list of actions,
    each consistent with the starting store ([wf_action]: a Delete with
    distinct indices and the matching cached strokes, a Modify whose old
    strokes match and that has a new stroke per in-range index, a Move with
    distinct indices whose f32 translation is undone exactly on the points
    it touches, any Create), running [execute a; undo] for each action in
    turn succeeds and ends with the starting stroke list. *)
Theorem execute_undo_roundtrip :
  forall from_rgba (actions : list PaintAction) (app : PaintApp),
  Forall (wf_action from_rgba (lines app)) actions ->
  exists app', execute_undo_pairs from_rgba actions app = Some app' /\ lines app' = lines app.
Proof.
  intros from_rgba actions. induction actions as [|a rest IH]; intros app Hwf.
  - exists app. split; reflexivity.
  - apply Forall_cons in Hwf as [Ha Hrest].
    destruct (execute_undo_restores from_rgba a app Ha) as (app1 & app2 & H1 & H2 & Hl).
    simpl. rewrite H1, H2.
    destruct (IH app2) as (app' & Hrun & Hl').
    + rewrite Hl. exact Hrest.
    + exists app'. split; [exact Hrun|]. rewrite Hl'. exact Hl.
Qed.

Lemma execute_undo_roundtrip_witness :
  let app := app_of [stroke 0; stroke 1; stroke 2] in
  let actions := [Create [sstroke 5]; Delete [2; 0] [sstroke 2; sstroke 0];
                  Modify [1; 8] [sstroke 1] [sstroke 7]; Move [0; 1] (f32_of_Z 3) (f32_of_Z 4)] in
  Forall (wf_action plain_from_rgba (lines app)) actions /\
  exists app', execute_undo_pairs plain_from_rgba actions app = Some app' /\ lines app' = lines app.
Proof.
  cbv zeta.
  assert (Hwf : Forall (wf_action plain_from_rgba [stroke 0; stroke 1; stroke 2])
                  [Create [sstroke 5]; Delete [2; 0] [sstroke 2; sstroke 0];
                   Modify [1; 8] [sstroke 1] [sstroke 7]; Move [0; 1] (f32_of_Z 3) (f32_of_Z 4)]).
  { apply Forall_cons; split; [exact I|].
    apply Forall_cons; split.
    { split; [apply NoDup_cons; split; [intros Hin; apply list_elem_of_singleton in Hin; discriminate | apply NoDup_singleton]|].
      split; [reflexivity|].
      intros [|[|k]] i c Hk Hc; simpl in *; try discriminate;
        injection Hk as <-; injection Hc as <-; vm_compute; reflexivity. }
    apply Forall_cons; split.
    { intros [|[|k]] i ln Hk Hln; simpl in *; try discriminate;
        injection Hk as <-; simpl in Hln; try discriminate.
      injection Hln as <-. split; [eexists; reflexivity|].
      eexists; split; [reflexivity|]. vm_compute. reflexivity. }
    apply Forall_cons; split; [|apply Forall_nil; exact I].
    split; [apply NoDup_cons; split; [intros Hin; apply list_elem_of_singleton in Hin; discriminate | apply NoDup_singleton]|].
    intros i ln p Hi Hln Hp.
    apply elem_of_cons in Hi as [->|Hi]; [|apply list_elem_of_singleton in Hi as ->];
      simpl in Hln; injection Hln as <-; simpl in Hp;
      apply list_elem_of_singleton in Hp as ->; vm_compute; reflexivity. }
  split; [exact Hwf|].
  apply (execute_undo_roundtrip plain_from_rgba _ (app_of [stroke 0; stroke 1; stroke 2])).
  exact Hwf.
Defined.

(** C2 (as stated, refuted).  A Move by 2^25 on the point (1, 0): in f32,
    1 + 2^25 rounds to 2^25, and undo's subtraction gives 0, so the stroke
    comes back at (0, 0).  A Delete whose cached stroke is not the stored one
    also ends with a different store: undo re-inserts the cached stroke. *)
Lemma execute_undo_not_identity :
  (exists app', execute_undo_pairs plain_from_rgba
                  [Move [0] (f32_of_Z (2 ^ 25)) (f32_of_Z 0)] (app_of [stroke 1]) = Some app' /\
                lines app' = [stroke 0]) /\
  (exists app', execute_undo_pairs plain_from_rgba
                  [Delete [0] [sstroke 9]] (app_of [stroke 1]) = Some app' /\
                lines app' = [stroke 9]) /\
  stroke 0 <> stroke 1 /\ stroke 9 <> stroke 1.
Proof.
  split; [eexists; split; [vm_compute; reflexivity | vm_compute; reflexivity]|].
  split; [eexists; split; [vm_compute; reflexivity | vm_compute; reflexivity]|].
  split; intros H; vm_compute in H; discriminate H.
Qed.

(** ** Redo after undo *)

Lemma remove_all_after_insert_all from_rgba (Q : list (nat * SerializableLine))
    (l l' : list Line) :
  insert_all from_rgba Q l = Some l' -> remove_all (rev (map fst Q)) l' = l.
Proof.
  revert l. induction Q as [|[i c] Q IH]; intros l HQ; cbn in HQ.
  - injection HQ as <-. reflexivity.
  - set (v := line_of_sline from_rgba c) in HQ. unfold vec_insert in HQ.
    destruct (Nat.leb_spec i (List.length l)) as [Hi|]; [|discriminate].
    cbn [map rev]. unfold remove_all. rewrite fold_left_app.
    fold (remove_all (rev (map fst Q)) l'). rewrite (IH _ HQ).
    change (remove_all [i] (take i l ++ v :: drop i l) = l).
    rewrite remove_all_cons.
    rewrite length_app, length_cons, length_take, length_drop.
    destruct (Nat.ltb_spec i (Nat.min i (List.length l) + S (List.length l - i))) as [_|]; [|lia].
    change (remove_all [] ?x) with x.
    replace i with (List.length (take i l)) at 1 by (rewrite length_take; lia).
    rewrite delete_middle. apply take_drop.
Qed.

Lemma sort_desc_zip_keys {B} (idxs : list nat) (cache : list B) :
  List.length idxs <= List.length cache ->
  sort_desc idxs = rev (map fst (sort_by_idx (zip idxs cache))).
Proof.
  intros Hlen.
  apply (Sorted_unique_strong ge).
  - intros x1 x2 _ _ H1 H2. unfold ge in *. lia.
  - apply sort_desc_sorted.
  - apply rev_sorted_ge.
    apply (Sorted_fmap fst (fun p q => p.1 <= q.1) le); [intros x y H; exact H|].
    apply sort_by_idx_sorted.
  - rewrite sort_desc_perm. symmetry. rewrite <- Permutation_rev.
    etransitivity; [apply Permutation_map, sort_by_idx_perm|].
    change (map fst (zip idxs cache)) with ((zip idxs cache).*1).
    rewrite fst_zip by exact Hlen. reflexivity.
Qed.

Lemma replace_loop_length from_rgba (i : nat) (idxs : list nat) (src : list SerializableLine)
    (l l1 : list Line) :
  replace_loop from_rgba i idxs src l = Some l1 -> List.length l1 = List.length l.
Proof.
  revert i l. induction idxs as [|idx rest IH]; intros i l H; cbn in H.
  - injection H as <-. reflexivity.
  - destruct (l !! idx); [|exact (IH _ _ H)].
    destruct (src !! i); [|discriminate].
    rewrite (IH _ _ H). apply length_insert.
Qed.

(** Two runs of the same Modify loop on stores of the same length write the
    same strokes at the listed positions and keep every other position. *)
Lemma replace_loop_frame from_rgba (i : nat) (idxs : list nat) (src : list SerializableLine)
    (l m l1 : list Line) :
  List.length l = List.length m ->
  replace_loop from_rgba i idxs src l = Some l1 ->
  exists m1, replace_loop from_rgba i idxs src m = Some m1 /\
    forall j, (j ∈ idxs -> l1 !! j = m1 !! j) /\
              (j ∉ idxs -> l1 !! j = l !! j /\ m1 !! j = m !! j).
Proof.
  revert i l m. induction idxs as [|idx rest IH]; intros i l m Hlen H;
    cbn [replace_loop] in H |- *.
  - injection H as <-. exists m. split; [reflexivity|].
    intros j. split; [intros Hj; apply elem_of_nil in Hj as []|split; reflexivity].
  - destruct (l !! idx) as [x|] eqn:Hl.
    + assert (Hidx : idx < List.length m) by (rewrite <- Hlen; eapply lookup_lt_Some; exact Hl).
      destruct (lookup_lt_is_Some_2 m idx Hidx) as [y Hm]. rewrite Hm.
      destruct (src !! i) as [nl|]; [|discriminate].
      destruct (IH (S i) (<[idx := line_of_sline from_rgba nl]> l)
                  (<[idx := line_of_sline from_rgba nl]> m)
                  ltac:(rewrite !length_insert; exact Hlen) H)
        as (m1 & Hm1 & Hfr).
      exists m1. split; [exact Hm1|]. intros j. split.
      * intros Hj. destruct (decide (j ∈ rest)) as [Hr|Hr]; [apply (Hfr j), Hr|].
        apply elem_of_cons in Hj as [->|Hj]; [|contradiction].
        destruct (proj2 (Hfr idx) Hr) as [E1 E2]. rewrite E1, E2.
        rewrite !list_lookup_insert_eq; [reflexivity|exact Hidx|].
        rewrite Hlen. exact Hidx.
      * intros Hj. apply not_elem_of_cons in Hj as [Hne Hr].
        destruct (proj2 (Hfr j) Hr) as [E1 E2]. rewrite E1, E2.
        rewrite !list_lookup_insert_ne by congruence. split; reflexivity.
    + assert (Hm : m !! idx = None)
        by (apply lookup_ge_None_2; apply lookup_ge_None_1 in Hl; lia).
      rewrite Hm. destruct (IH (S i) l m Hlen H) as (m1 & Hm1 & Hfr).
      exists m1. split; [exact Hm1|]. intros j. split.
      * intros Hj. destruct (decide (j ∈ rest)) as [Hr|Hr]; [apply (Hfr j), Hr|].
        apply elem_of_cons in Hj as [->|Hj]; [|contradiction].
        destruct (proj2 (Hfr idx) Hr) as [E1 E2]. rewrite E1, E2, Hl, Hm. reflexivity.
      * intros Hj. apply not_elem_of_cons in Hj as [_ Hr]. apply (Hfr j), Hr.
Qed.

Lemma translate_line_sub_add (dx dy : f32) (ln : Line) :
  (forall p, p ∈ points ln -> pos_add_vec (pos_sub_vec p dx dy) dx dy = p) ->
  translate_line pos_add_vec dx dy (translate_line pos_sub_vec dx dy ln) = ln.
Proof.
  intros Hp. destruct ln as [pts col w]. unfold translate_line. cbn [points color width].
  f_equal. rewrite map_map. transitivity (map id pts); [|apply map_id].
  apply map_ext_in. intros p Hin. apply Hp. cbn. apply list_elem_of_In, Hin.
Qed.

(** C3 (amended).  After [execute a] and [undo], [redo] reproduces exactly
    the stroke list and both stacks that [execute] left, for every Create and
    every Modify, for every Delete whose stroke cache is at least as long as
    its index list (whether or not the cache matches the store), and for
    every Move with distinct indices whose post-execute points each come
    back unchanged when moved by minus the delta and then by the delta in
    f32.  The condition is on the post-execute points only: [undo] need not
    give back the pre-execute strokes. *)
Theorem redo_after_undo_fidelity :
  forall from_rgba a (app app1 app2 : PaintApp),
  execute from_rgba a app = Some app1 -> undo from_rgba app1 = Some app2 ->
  (forall idxs cache, a = Delete idxs cache -> List.length idxs <= List.length cache) ->
  (forall idxs dx dy, a = Move idxs dx dy ->
     NoDup idxs /\
     forall j ln p, j ∈ idxs -> lines app1 !! j = Some ln -> p ∈ points ln ->
       pos_add_vec (pos_sub_vec p dx dy) dx dy = p) ->
  exists app3, redo from_rgba app2 = Some app3 /\ lines app3 = lines app1 /\
    undo_stack app3 = undo_stack app1 /\ redo_stack app3 = redo_stack app1.
Proof.
  intros from_rgba a app app1 app2 Hx Hu Hdel Hmove.
  unfold execute in Hx.
  destruct (apply_action from_rgba a (lines app)) as [l1|] eqn:Ha; [|discriminate].
  injection Hx as <-. unfold undo in Hu. cbn [undo_stack lines] in Hu.
  destruct (undo_action from_rgba a l1) as [l2|] eqn:Hua; [|discriminate].
  injection Hu as <-. unfold redo. cbn [redo_stack lines undo_stack].
  enough (Hr : apply_action from_rgba a l2 = Some l1)
    by (rewrite Hr; eexists; split; [reflexivity|]; cbn; auto).
  destruct a as [news|idxs cache|idxs olds news|idxs dx dy]; cbn in Ha, Hua |- *.
  - injection Ha as <-. injection Hua as <-.
    rewrite <- (length_map (line_of_sline from_rgba) news), iter_pop_app. reflexivity.
  - f_equal. injection Ha as <-.
    rewrite (sort_desc_zip_keys idxs cache) at 1 by exact (Hdel idxs cache eq_refl).
    exact (remove_all_after_insert_all from_rgba _ _ _ Hua).
  - pose proof (replace_loop_length from_rgba 0 idxs news _ _ Ha) as Hl1.
    pose proof (replace_loop_length from_rgba 0 idxs olds _ _ Hua) as Hl2.
    destruct (replace_loop_frame from_rgba 0 idxs olds l1 l1 l2 eq_refl Hua)
      as (m & _ & Hfu).
    destruct (replace_loop_frame from_rgba 0 idxs news (lines app) l2 l1
                ltac:(rewrite Hl2, Hl1; reflexivity) Ha) as (l3 & Hl3 & Hfr).
    rewrite Hl3. f_equal. apply list_eq. intros j.
    destruct (decide (j ∈ idxs)) as [Hj|Hj].
    + symmetry. apply (Hfr j), Hj.
    + destruct (proj2 (Hfr j) Hj) as [_ E]. rewrite E.
      exact (proj1 (proj2 (Hfu j) Hj)).
  - destruct (Hmove idxs dx dy eq_refl) as [Hnd Hpts]. cbn [lines] in Hpts.
    injection Ha as <-. injection Hua as <-. f_equal.
    apply list_eq. intros j. rewrite !translate_all_lookup by exact Hnd.
    destruct (decide (j ∈ idxs)) as [Hj|Hj]; [|reflexivity].
    destruct (lines app !! j) as [ln|] eqn:Hl; [|reflexivity].
    cbn. f_equal. apply translate_line_sub_add.
    intros p Hp. apply (Hpts j (translate_line pos_add_vec dx dy ln) p Hj); [|exact Hp].
    rewrite translate_all_lookup by exact Hnd. rewrite decide_True by exact Hj.
    rewrite Hl. reflexivity.
Qed.

Lemma redo_after_undo_fidelity_witness :
  exists app2 app3,
    execute plain_from_rgba (Move [0] (f32_of_Z (2 ^ 25)) (f32_of_Z 0)) (app_of [stroke 1])
      = Some (mkPaintApp [stroke (2 ^ 25)] [Move [0] (f32_of_Z (2 ^ 25)) (f32_of_Z 0)] [] []) /\
    undo plain_from_rgba
      (mkPaintApp [stroke (2 ^ 25)] [Move [0] (f32_of_Z (2 ^ 25)) (f32_of_Z 0)] [] [])
      = Some app2 /\
    lines app2 <> [stroke 1] /\
    redo plain_from_rgba app2 = Some app3 /\ lines app3 = [stroke (2 ^ 25)].
Proof.
  set (a := Move [0] (f32_of_Z (2 ^ 25)) (f32_of_Z 0)).
  set (app1 := mkPaintApp [stroke (2 ^ 25)] [a] [] []).
  assert (Hx : execute plain_from_rgba a (app_of [stroke 1]) = Some app1)
    by (vm_compute; reflexivity).
  destruct (undo plain_from_rgba app1) as [app2|] eqn:Hu; [|vm_compute in Hu; discriminate Hu].
  assert (Hl2 : lines app2 = [stroke 0]).
  { vm_compute in Hu. injection Hu as <-. vm_compute. reflexivity. }
  destruct (redo_after_undo_fidelity plain_from_rgba a (app_of [stroke 1]) app1 app2 Hx Hu
              ltac:(intros idxs cache Ha; discriminate Ha)
              ltac:(intros idxs dx dy Ha; injection Ha as <- <- <-; split;
                    [apply NoDup_singleton
                    |intros j ln p Hj Hl Hp; apply list_elem_of_singleton in Hj as ->;
                     cbn in Hl; injection Hl as <-; cbn in Hp;
                     apply list_elem_of_singleton in Hp as ->; vm_compute; reflexivity]))
    as (app3 & Hr & Hl3 & _).
  exists app2, app3. split; [exact Hx|]. split; [reflexivity|].
  split; [rewrite Hl2; vm_compute; intros H; discriminate H|].
  split; [exact Hr|]. exact Hl3.
Defined.

(** C3 (as stated, refuted).  [Delete [0;1]] with a single cached stroke on
    three strokes: execute leaves [stroke 2]; undo only re-inserts the one
    cached stroke (the zip is cut short), and redo then removes both
    positions, leaving an empty store.  A Move by +inf: execute moves (1, 0)
    to (+inf, 0), undo gives (NaN, 0) (inf - inf), and redo keeps NaN. *)
Lemma redo_after_undo_differs :
  (exists app1 app2 app3,
     execute plain_from_rgba (Delete [0; 1] [sstroke 9]) (app_of [stroke 0; stroke 1; stroke 2])
       = Some app1 /\
     undo plain_from_rgba app1 = Some app2 /\ redo plain_from_rgba app2 = Some app3 /\
     lines app1 = [stroke 2] /\ lines app3 = []) /\
  (exists app1 app2 app3,
     execute plain_from_rgba (Move [0] f32_inf (f32_of_Z 0)) (app_of [stroke 1]) = Some app1 /\
     undo plain_from_rgba app1 = Some app2 /\ redo plain_from_rgba app2 = Some app3 /\
     map (fun l => map pos_x (points l)) (lines app1) = [[f32_inf]] /\
     map (fun l => map pos_x (points l)) (lines app3) = [[S754_nan]]).
Proof.
  split; do 3 eexists; repeat split; vm_compute; reflexivity.
Qed.

(** ** Clearing the canvas *)

Lemma seq_sorted_le (s n : nat) : Sorted le (seq s n).
Proof.
  revert s. induction n as [|n IH]; intros s; simpl; constructor; [apply IH|].
  destruct n; simpl; constructor; lia.
Qed.

Lemma sort_desc_seq (n : nat) : sort_desc (seq 0 n) = rev (seq 0 n).
Proof.
  apply (Sorted_unique_strong ge).
  - intros x1 x2 _ _ H1 H2. unfold ge in *. lia.
  - apply sort_desc_sorted.
  - apply rev_sorted_ge, seq_sorted_le.
  - rewrite sort_desc_perm. apply Permutation_rev.
Qed.

Lemma remove_all_rev_seq (n : nat) (l : list Line) :
  List.length l = n -> remove_all (rev (seq 0 n)) l = [].
Proof.
  revert l. induction n as [|n IH]; intros l Hlen.
  - destruct l; [reflexivity|discriminate].
  - rewrite seq_S, rev_app_distr. cbn [rev app]. rewrite Nat.add_0_l, remove_all_cons.
    destruct (Nat.ltb_spec n (List.length l)); [|lia].
    apply IH. rewrite length_delete; [lia|].
    apply lookup_lt_is_Some_2. lia.
Qed.

(** Undoing a Delete of every position, cached with [sline_of_line], gives
    back every stroke passed through the codec. *)
Lemma clear_undo_restores to_srgba from_rgba (l : list Line) :
  undo_action from_rgba
    (Delete (seq 0 (List.length l)) (map (sline_of_line to_srgba) l))
    (remove_all (sort_desc (seq 0 (List.length l))) l) =
  Some (map (fun ln => line_of_sline from_rgba (sline_of_line to_srgba ln)) l).
Proof.
  set (l' := map (fun ln => line_of_sline from_rgba (sline_of_line to_srgba ln)) l).
  assert (Hlen' : List.length l' = List.length l) by apply length_map.
  assert (Hrm : remove_all (sort_desc (seq 0 (List.length l))) l =
                remove_all (sort_desc (seq 0 (List.length l))) l').
  { rewrite sort_desc_seq, !remove_all_rev_seq by (auto; lia). reflexivity. }
  rewrite Hrm, <- Hlen'.
  rewrite Hlen'.
  apply delete_undo_restores.
  - apply NoDup_seq.
  - rewrite length_map, length_seq. reflexivity.
  - intros k i c Hk Hck. apply lookup_seq in Hk as [-> Hkn].
    rewrite list_lookup_fmap in Hck.
    destruct (l !! k) as [ln|] eqn:Hl; simpl in Hck; [|discriminate].
    injection Hck as <-. unfold l'. rewrite Nat.add_0_l, list_lookup_fmap, Hl. reflexivity.
Qed.

(** C10 (amended).  [clear_all] on an empty store changes nothing.  On a non-empty
    store it goes through [execute] with one Delete of the positions
    [0 .. len) caching every stroke: the store and the selection end empty,
    the redo stack is cleared, that Delete is on top of the undo stack, and
    one [undo] puts back every stroke in its original order (each stroke as
    it comes back from its serialized form, which is the stroke itself
    whenever the colour conversion round-trips). *)
Theorem clear_all_single_delete :
  forall to_srgba from_rgba app,
  (lines app = [] -> clear_all to_srgba from_rgba app = Some app) /\
  (lines app <> [] ->
   exists app',
     clear_all to_srgba from_rgba app = Some app' /\
     lines app' = [] /\ selected_indices app' = [] /\ redo_stack app' = [] /\
     undo_stack app' =
       Delete (seq 0 (List.length (lines app))) (map (sline_of_line to_srgba) (lines app))
         :: undo_stack app /\
     exists app'',
       undo from_rgba app' = Some app'' /\ undo_stack app'' = undo_stack app /\
       lines app'' = map (fun ln => line_of_sline from_rgba (sline_of_line to_srgba ln))
                         (lines app) /\
       ((forall ln, ln ∈ lines app -> line_of_sline from_rgba (sline_of_line to_srgba ln) = ln) ->
        lines app'' = lines app)).
Proof.
  intros to_srgba from_rgba [ls us rs sel]. simpl. split.
  - intros ->. reflexivity.
  - intros Hne. unfold clear_all, execute. simpl.
    destruct (Nat.eqb_spec (List.length ls) 0) as [H0|_].
    { destruct ls; [contradiction|discriminate]. }
    eexists. split; [reflexivity|]. simpl.
    split; [rewrite sort_desc_seq; apply remove_all_rev_seq; reflexivity|].
    split; [reflexivity|]. split; [reflexivity|]. split; [reflexivity|].
    pose proof (clear_undo_restores to_srgba from_rgba ls) as Hu. simpl in Hu.
    unfold undo. simpl. rewrite Hu.
    eexists. split; [reflexivity|]. simpl. split; [reflexivity|]. split; [reflexivity|].
    intros Hrt. simpl. transitivity (map id ls); [|apply map_id].
    apply map_ext_in. intros ln Hln. apply Hrt, list_elem_of_In, Hln.
Qed.

Lemma clear_all_single_delete_witness :
  [stroke 0; stroke 1] <> [] /\
  exists app',
    clear_all plain_to_srgba plain_from_rgba (app_of [stroke 0; stroke 1]) = Some app' /\
    lines app' = [] /\
    exists app'', undo plain_from_rgba app' = Some app'' /\
                  lines app'' = [stroke 0; stroke 1].
Proof.
  assert (Hne : [stroke 0; stroke 1] <> []) by discriminate.
  split; [exact Hne|].
  destruct (proj2 (clear_all_single_delete plain_to_srgba plain_from_rgba
                     (app_of [stroke 0; stroke 1])) Hne)
    as (app' & Hc & Hl & _ & _ & _ & app'' & Hu & _ & _ & Hrt).
  exists app'. split; [exact Hc|]. split; [exact Hl|].
  exists app''. split; [exact Hu|]. apply Hrt.
  intros ln Hln. simpl in Hln.
  apply elem_of_cons in Hln as [->|Hln]; [vm_compute; reflexivity|].
  apply list_elem_of_singleton in Hln as ->. vm_compute. reflexivity.
Defined.

(** C10 (as stated, refuted).  One [undo] after [clear_all] gives back each
    stroke as it comes back from its serialized form, not the stroke itself:
    with a colour conversion that, like egui's, turns alpha 0 into
    transparent black, a stroke of colour (10, 20, 30, 0) comes back
    transparent black. *)
Lemma clear_all_undo_loses_colour :
  exists app' app'',
    clear_all plain_to_srgba zero_alpha_from_rgba (app_of [faint_stroke 0]) = Some app' /\
    lines app' = [] /\
    undo zero_alpha_from_rgba app' = Some app'' /\
    lines app'' = [mkLine [pt 0 0] transparent_black (f32_of_Z 1)] /\
    lines app'' <> [faint_stroke 0].
Proof.
  do 2 eexists. split; [vm_compute; reflexivity|]. split; [vm_compute; reflexivity|].
  split; [vm_compute; reflexivity|]. split; [vm_compute; reflexivity|].
  vm_compute. intros H. discriminate H.
Qed.

(** ** Out-of-range indices *)

Lemma remove_all_step_length (i : nat) (l : list Line) :
  List.length (if i <? List.length l then delete i l else l) <= List.length l.
Proof.
  destruct (Nat.ltb_spec i (List.length l)); [|lia].
  rewrite length_delete by (apply lookup_lt_is_Some_2; lia). lia.
Qed.

Lemma remove_all_filter (s : list nat) (n : nat) (l : list Line) :
  List.length l <= n ->
  remove_all (filter (fun i => i < n) s) l = remove_all s l.
Proof.
  revert l. induction s as [|i s IH]; intros l Hn; [reflexivity|].
  rewrite filter_cons. destruct (decide (i < n)) as [Hi|Hi].
  - rewrite !remove_all_cons. apply IH.
    pose proof (remove_all_step_length i l). lia.
  - rewrite IH by lia. rewrite remove_all_cons.
    destruct (Nat.ltb_spec i (List.length l)); [lia|reflexivity].
Qed.

Lemma StronglySorted_filter_nat (P : nat -> Prop) `{!forall x, Decision (P x)}
    (R : nat -> nat -> Prop) (l : list nat) :
  StronglySorted R l -> StronglySorted R (filter P l).
Proof.
  induction 1 as [|x l Hs IH Hall]; [constructor|].
  rewrite filter_cons. destruct (decide (P x)); [|exact IH].
  constructor; [exact IH|]. rewrite Forall_forall in Hall |- *.
  intros y Hy. apply Hall.
  apply list_elem_of_filter in Hy as [_ Hy]. exact Hy.
Qed.

Lemma sort_desc_filter (P : nat -> Prop) `{!forall x, Decision (P x)} (l : list nat) :
  sort_desc (filter P l) = filter P (sort_desc l).
Proof.
  apply (Sorted_unique_strong ge).
  - intros x1 x2 _ _ H1 H2. unfold ge in *. lia.
  - apply sort_desc_sorted.
  - apply StronglySorted_Sorted, StronglySorted_filter_nat.
    apply Sorted.Sorted_StronglySorted; [apply ge_nat_transitive|apply sort_desc_sorted].
  - rewrite !sort_desc_perm. reflexivity.
Qed.

Lemma translate_step_length op (idx : nat) dx dy (l : list Line) :
  List.length (match l !! idx with Some ln => <[idx := translate_line op dx dy ln]> l | None => l end)
  = List.length l.
Proof. destruct (l !! idx); [apply length_insert|reflexivity]. Qed.

Lemma translate_all_filter op (s : list nat) (n : nat) dx dy (l : list Line) :
  List.length l = n ->
  translate_all op (filter (fun i => i < n) s) dx dy l = translate_all op s dx dy l.
Proof.
  revert l. induction s as [|i s IH]; intros l Hn; [reflexivity|].
  rewrite filter_cons. destruct (decide (i < n)) as [Hi|Hi].
  - rewrite !translate_all_cons. apply IH. rewrite translate_step_length. exact Hn.
  - rewrite IH by exact Hn. rewrite translate_all_cons.
    rewrite (lookup_ge_None_2 l i) by lia. reflexivity.
Qed.

Lemma replace_loop_shift from_rgba (i : nat) (idxs : list nat) (src : list SerializableLine) :
  forall m l, replace_loop from_rgba (S (i + m)) idxs src l =
              replace_loop from_rgba (i + m) idxs (delete i src) l.
Proof.
  induction idxs as [|x idxs IH]; intros m l; simpl; [reflexivity|].
  rewrite list_lookup_delete_ge by lia.
  specialize (IH (S m)). rewrite Nat.add_succ_r in IH.
  destruct (l !! x); [destruct (src !! S (i + m))|]; try apply IH; reflexivity.
Qed.

Lemma replace_loop_skip from_rgba (idxs1 : list nat) (j : nat) (idxs2 : list nat)
    (src : list SerializableLine) :
  forall i l, List.length l <= j ->
  replace_loop from_rgba i (idxs1 ++ j :: idxs2) src l =
  replace_loop from_rgba i (idxs1 ++ idxs2) (delete (i + List.length idxs1) src) l.
Proof.
  induction idxs1 as [|x idxs1 IH]; intros i l Hj; simpl.
  - rewrite (lookup_ge_None_2 l j) by exact Hj. rewrite Nat.add_0_r.
    rewrite <- (Nat.add_0_r i) at 1. rewrite replace_loop_shift, Nat.add_0_r. reflexivity.
  - rewrite list_lookup_delete_lt by lia.
    replace (i + S (List.length idxs1)) with (S i + List.length idxs1) by lia.
    destruct (l !! x); [destruct (src !! i)|]; try reflexivity; apply IH;
      rewrite ?length_insert; exact Hj.
Qed.

(** C1 (a defect of [undo]).  On a store [l], [apply_action]'s Delete,
    Modify and Move, and [undo_action]'s inverses of Modify and Move, treat
    every index [>= length l] as absent: dropping it from the action gives
    the same result (for Modify, together with the source stroke at the
    same position), and Delete and Move never fail, nor does Modify when
    each in-range index has a source stroke.  The inverse of Delete lacks
    the bounds guard every other path has: a cached stroke whose index
    equals the length is appended instead of skipped, and one whose index
    exceeds it makes [Vec::insert] panic instead of being a silent no-op. *)
Theorem out_of_range_indices_skipped :
  forall from_rgba (l : list Line),
  (forall idxs cache,
     apply_action from_rgba (Delete idxs cache) l =
       apply_action from_rgba (Delete (filter (fun i => i < List.length l) idxs) cache) l /\
     is_Some (apply_action from_rgba (Delete idxs cache) l)) /\
  (forall idxs dx dy,
     apply_action from_rgba (Move idxs dx dy) l =
       apply_action from_rgba (Move (filter (fun i => i < List.length l) idxs) dx dy) l /\
     undo_action from_rgba (Move idxs dx dy) l =
       undo_action from_rgba (Move (filter (fun i => i < List.length l) idxs) dx dy) l /\
     is_Some (apply_action from_rgba (Move idxs dx dy) l) /\
     is_Some (undo_action from_rgba (Move idxs dx dy) l)) /\
  (forall idxs1 j idxs2 old new, List.length l <= j ->
     apply_action from_rgba (Modify (idxs1 ++ j :: idxs2) old new) l =
       apply_action from_rgba (Modify (idxs1 ++ idxs2) old (delete (List.length idxs1) new)) l /\
     undo_action from_rgba (Modify (idxs1 ++ j :: idxs2) old new) l =
       undo_action from_rgba (Modify (idxs1 ++ idxs2) (delete (List.length idxs1) old) new) l) /\
  (forall idxs old new,
     (forall k j, idxs !! k = Some j -> j < List.length l -> is_Some (new !! k)) ->
     is_Some (apply_action from_rgba (Modify idxs old new) l)) /\
  (forall idxs old new,
     (forall k j, idxs !! k = Some j -> j < List.length l -> is_Some (old !! k)) ->
     is_Some (undo_action from_rgba (Modify idxs old new) l)) /\
  (forall c, undo_action from_rgba (Delete [List.length l] [c]) l =
               Some (l ++ [line_of_sline from_rgba c])) /\
  (forall j c, List.length l < j -> undo_action from_rgba (Delete [j] [c]) l = None).
Proof.
  intros from_rgba l. split; [|split; [|split; [|split; [|split; [|split]]]]].
  - intros idxs cache. simpl. split; [|eexists; reflexivity].
    rewrite sort_desc_filter, remove_all_filter by lia. reflexivity.
  - intros idxs dx dy. simpl.
    rewrite !translate_all_filter by reflexivity.
    repeat split; eexists; reflexivity.
  - intros idxs1 j idxs2 old new Hj. simpl.
    rewrite !replace_loop_skip by exact Hj. split; reflexivity.
  - intros idxs old new Hsrc. simpl.
    destruct (replace_loop_success from_rgba 0 idxs new l Hsrc) as (l1 & H1 & _).
    rewrite H1. eexists. reflexivity.
  - intros idxs old new Hsrc. simpl.
    destruct (replace_loop_success from_rgba 0 idxs old l Hsrc) as (l1 & H1 & _).
    rewrite H1. eexists. reflexivity.
  - intros c. simpl. unfold vec_insert.
    rewrite Nat.leb_refl, take_ge, drop_ge by lia. reflexivity.
  - intros j c Hj. simpl. unfold vec_insert.
    destruct (Nat.leb_spec j (List.length l)); [lia|reflexivity].
Qed.

Lemma out_of_range_indices_skipped_witness :
  (1 <= 5 /\
   apply_action plain_from_rgba (Modify [0; 5] [sstroke 0; sstroke 7] [sstroke 3; sstroke 8])
     [stroke 0] =
   apply_action plain_from_rgba (Modify [0] [sstroke 0; sstroke 7] [sstroke 3]) [stroke 0]) /\
  (1 < 3 /\ undo_action plain_from_rgba (Delete [3] [sstroke 9]) [stroke 0] = None).
Proof.
  destruct (out_of_range_indices_skipped plain_from_rgba [stroke 0])
    as (_ & _ & Hmod & _ & _ & _ & Hpanic).
  split; split.
  - lia.
  - exact (proj1 (Hmod [0] 5 [] [sstroke 0; sstroke 7] [sstroke 3; sstroke 8]
                   ltac:(simpl; lia))).
  - lia.
  - exact (Hpanic 3 (sstroke 9) ltac:(simpl; lia)).
Defined.

(** C1 (the failing input).  Undoing a Delete whose cached index is out of
    range on the current store is no silent no-op: with one stroke, index 1
    appends the cached stroke, and index 2 makes [Vec::insert] panic. *)
Lemma undo_delete_out_of_range_not_noop :
  (exists app', undo plain_from_rgba (mkPaintApp [stroke 0] [Delete [1] [sstroke 9]] [] [])
                  = Some app' /\ lines app' = [stroke 0; stroke 9]) /\
  undo plain_from_rgba (mkPaintApp [stroke 0] [Delete [2] [sstroke 9]] [] []) = None.
Proof.
  split; [eexists; split; vm_compute; reflexivity | vm_compute; reflexivity].
Qed.

(* ------------------------------------------------------------------ *)
(** ** The colour word, read back *)

Open Scope Z_scope.

Lemma u32_of_u8_of_u32 (z : Z) : u32_of_u8 (u8_of_u32 z) = z mod 256.
Proof.
  unfold u8_of_u32, u32_of_u8. pose proof (Z.mod_pos_bound z 256) as Hb.
  destruct (Byte.of_N (Z.to_N (z mod 256))) as [b|] eqn:E.
  - apply Byte.to_of_N in E. rewrite E. apply Z2N.id. lia.
  - apply Byte.of_N_None_iff in E. lia.
Qed.

(** Packing the bytes that [From<&SerializableLine>] extracts from a
    colour word gives that word back, for every [u32]. *)
Theorem pack_unpack_u32 (c : Z) :
  0 <= c < 2 ^ 32 ->
  let '(r, g, b, a) := unpack_argb c in pack_argb r g b a = c.
Proof.
  intros Hc. unfold unpack_argb. rewrite pack_argb_layout, !u32_of_u8_of_u32.
  change 255 with (Z.ones 8). rewrite !Z.land_ones by lia.
  rewrite !Z.shiftr_div_pow2 by lia. rewrite !Z.mod_mod by lia.
  change (2 ^ 24) with 16777216 in *. change (2 ^ 16) with 65536 in *.
  change (2 ^ 8) with 256 in *. change (2 ^ 32) with 4294967296 in *.
  replace (c / 16777216) with (c / 256 / 256 / 256) by (rewrite !Z.div_div by lia; reflexivity).
  replace (c / 65536) with (c / 256 / 256) by (rewrite !Z.div_div by lia; reflexivity).
  set (q1 := c / 256). set (q2 := q1 / 256). set (q3 := q2 / 256).
  pose proof (Z.div_mod c 256) as D1. pose proof (Z.div_mod q1 256) as D2.
  pose proof (Z.div_mod q2 256) as D3.
  assert (Hq3 : 0 <= q3 < 256).
  { unfold q3, q2, q1. rewrite !Z.div_div by lia. split.
    - apply Z.div_pos; lia.
    - apply Z.div_lt_upper_bound; lia. }
  rewrite (Z.mod_small q3 256) by exact Hq3.
  fold q1 in D1. fold q2 in D2. fold q3 in D3. lia.
Qed.

Lemma pack_unpack_u32_witness :
  0 <= 2155905152 < 2 ^ 32 /\
  (let '(r, g, b, a) := unpack_argb 2155905152 in pack_argb r g b a = 2155905152).
Proof. split; [lia|]. apply pack_unpack_u32. lia. Defined.

Close Scope Z_scope.

(** Serializing a deserialized stroke gives the same serialized stroke,
    provided its colour word is a [u32] and the colour conversions give
    back the four bytes read from that word. *)
Theorem sline_roundtrip to_srgba from_rgba (s : SerializableLine) :
  (let '(r, g, b, a) := unpack_argb (s_color s) in
   to_srgba (from_rgba r g b a) = (r, g, b, a)) ->
  (0 <= s_color s < 2 ^ 32)%Z ->
  sline_of_line to_srgba (line_of_sline from_rgba s) = s.
Proof.
  intros Hrt Hc. destruct s as [pts col w]. cbn [s_color] in Hc, Hrt.
  unfold line_of_sline, sline_of_line. cbn [s_color s_points s_width].
  pose proof (pack_unpack_u32 col Hc) as Hp.
  destruct (unpack_argb col) as [[[r g] b] a]. cbn [color points width].
  rewrite Hrt, Hp. f_equal.
  rewrite map_map. transitivity (map id pts); [|apply map_id].
  apply map_ext. intros [x y]. reflexivity.
Qed.

Lemma sline_roundtrip_witness :
  (let '(r, g, b, a) := unpack_argb (s_color (sstroke 4)) in
   plain_to_srgba (zero_alpha_from_rgba r g b a) = (r, g, b, a)) /\
  (0 <= s_color (sstroke 4) < 2 ^ 32)%Z /\
  sline_of_line plain_to_srgba (line_of_sline zero_alpha_from_rgba (sstroke 4)) = sstroke 4.
Proof.
  assert (H1 : let '(r, g, b, a) := unpack_argb (s_color (sstroke 4)) in
               plain_to_srgba (zero_alpha_from_rgba r g b a) = (r, g, b, a))
    by (vm_compute; reflexivity).
  assert (H2 : (0 <= s_color (sstroke 4) < 2 ^ 32)%Z)
    by (split; vm_compute; congruence).
  split; [exact H1|]. split; [exact H2|].
  exact (sline_roundtrip plain_to_srgba zero_alpha_from_rgba (sstroke 4) H1 H2).
Defined.

(* ------------------------------------------------------------------ *)
(** ** Which strokes a Delete keeps *)

Lemma keep_from_app (k : nat) (s : list nat) (A B : list Line) :
  keep_from k s (A ++ B) = keep_from k s A ++ keep_from (k + List.length A) s B.
Proof.
  revert k. induction A as [|x A IH]; intros k; simpl.
  - rewrite Nat.add_0_r. reflexivity.
  - rewrite IH. replace (S k + List.length A) with (k + S (List.length A)) by lia.
    destruct (decide (k ∈ s)); reflexivity.
Qed.

Lemma keep_from_none (k : nat) (s : list nat) (l : list Line) :
  (forall j, j ∈ s -> j < k) -> keep_from k s l = l.
Proof.
  revert k. induction l as [|x l IH]; intros k Hs; simpl; [reflexivity|].
  destruct (decide (k ∈ s)) as [Hk|_]; [apply Hs in Hk; lia|].
  f_equal. apply IH. intros j Hj. apply Hs in Hj. lia.
Qed.

Lemma keep_from_ext (k : nat) (s s' : list nat) (l : list Line) :
  (forall j, k <= j < k + List.length l -> (j ∈ s <-> j ∈ s')) ->
  keep_from k s l = keep_from k s' l.
Proof.
  revert k. induction l as [|x l IH]; intros k Hs; simpl in *; [reflexivity|].
  assert (Hk : k ∈ s <-> k ∈ s') by (apply Hs; lia).
  rewrite (IH (S k)) by (intros j Hj; apply Hs; lia).
  destruct (decide (k ∈ s)), (decide (k ∈ s')); tauto || reflexivity.
Qed.

(** Removing strictly decreasing in-range positions one after the other
    removes exactly those positions. *)
Lemma remove_all_strict (s : list nat) (l : list Line) :
  StronglySorted gt s -> (forall j, j ∈ s -> j < List.length l) ->
  remove_all s l = keep_from 0 s l.
Proof.
  revert l. induction s as [|i s IH]; intros l Hs Hin.
  - symmetry. apply keep_from_none. intros j Hj. inversion Hj.
  - apply StronglySorted_inv in Hs as [Hs Hall].
    rewrite Forall_forall in Hall.
    assert (Hi : i < List.length l) by (apply Hin; left).
    destruct (lookup_lt_is_Some_2 l i Hi) as [x Hx].
    rewrite remove_all_cons.
    destruct (Nat.ltb_spec i (List.length l)); [|lia].
    rewrite IH.
    2: exact Hs.
    2: { intros j Hj. rewrite length_delete by (rewrite Hx; eexists; reflexivity).
         specialize (Hall j Hj). lia. }
    rewrite delete_take_drop.
    rewrite <- (take_drop_middle l i x Hx) at 3.
    assert (Ht : List.length (take i l) = i) by (rewrite length_take; lia).
    rewrite !keep_from_app, Ht. simpl.
    destruct (decide (i ∈ i :: s)) as [_|Hn]; [|exfalso; apply Hn; left].
    rewrite (keep_from_none i s) by (intros j Hj; apply Hall; exact Hj).
    rewrite (keep_from_none (S i) (i :: s)).
    2: { intros j Hj. apply elem_of_cons in Hj as [->|Hj]; [lia|].
         specialize (Hall j Hj). lia. }
    f_equal. apply keep_from_ext. intros j Hj. rewrite Ht in Hj.
    rewrite elem_of_cons. split; [intros Hjs; right; exact Hjs|].
    intros [->|Hjs]; [lia|exact Hjs].
Qed.

Lemma strict_of_sorted_nodup (s : list nat) :
  Sorted ge s -> NoDup s -> StronglySorted gt s.
Proof.
  intros Hs Hnd. apply Sorted.Sorted_StronglySorted in Hs; [|exact ge_nat_transitive].
  induction Hs as [|x s Hs IH Hall]; constructor.
  - apply IH. apply NoDup_cons in Hnd as [_ Hnd]. exact Hnd.
  - apply NoDup_cons in Hnd as [Hnotin _].
    rewrite Forall_forall in Hall |- *. intros y Hy.
    specialize (Hall y Hy). assert (x <> y) by (intros ->; contradiction). unfold gt, ge in *. lia.
Qed.

(** A Delete whose indices are distinct leaves exactly the strokes at the
    positions it does not list, in their order; listed positions past the
    end change nothing. *)
Theorem apply_delete_keeps_unlisted from_rgba (idxs : list nat) (cache : list SerializableLine)
    (l : list Line) :
  NoDup idxs ->
  apply_action from_rgba (Delete idxs cache) l = Some (keep_from 0 idxs l).
Proof.
  intros Hnd. simpl. f_equal.
  set (P := fun i => i < List.length l).
  rewrite <- (remove_all_filter (sort_desc idxs) (List.length l) l) by lia.
  rewrite <- sort_desc_filter.
  assert (Hperm : sort_desc (filter (fun i => i < List.length l) idxs)
                  ≡ₚ filter (fun i => i < List.length l) idxs) by apply sort_desc_perm.
  rewrite remove_all_strict.
  - apply keep_from_ext. intros j Hj. rewrite Hperm, list_elem_of_filter.
    split; [intros [_ Hji]; exact Hji | intros Hji; split; [lia | exact Hji]].
  - apply strict_of_sorted_nodup; [apply sort_desc_sorted|].
    rewrite Hperm. apply NoDup_filter. exact Hnd.
  - intros j Hj. rewrite Hperm, list_elem_of_filter in Hj. apply Hj.
Qed.

Lemma apply_delete_keeps_unlisted_witness :
  NoDup [3; 1; 7] /\
  apply_action plain_from_rgba (Delete [3; 1; 7] []) [stroke 0; stroke 1; stroke 2; stroke 3; stroke 4]
  = Some (keep_from 0 [3; 1; 7] [stroke 0; stroke 1; stroke 2; stroke 3; stroke 4]).
Proof.
  assert (Hnd : NoDup [3; 1; 7]).
  { apply NoDup_ListNoDup. repeat constructor; simpl; intuition lia. }
  split; [exact Hnd|]. apply apply_delete_keeps_unlisted. exact Hnd.
Defined.

(* ------------------------------------------------------------------ *)
(** ** Copy and paste *)

(** [paste] on a non-empty clipboard appends the decoded, serialized
    clipboard strokes moved by (20, 20), records one Create of exactly those
    strokes, clears the redo stack, selects exactly the new positions
    [len .. len + k) and keeps the moved strokes as the next clipboard; on an
    empty clipboard it does nothing. *)
Theorem paste_appends_and_selects to_srgba from_rgba (app : PaintApp) (clipboard : list Line) :
  (clipboard = [] -> paste to_srgba from_rgba app clipboard = Some (app, clipboard)) /\
  (clipboard <> [] ->
   let moved := map (translate_line pos_add_vec (f32_of_Z 20) (f32_of_Z 20)) clipboard in
   paste to_srgba from_rgba app clipboard =
   Some (mkPaintApp
           (lines app ++ map (fun ln => line_of_sline from_rgba (sline_of_line to_srgba ln)) moved)
           (Create (map (sline_of_line to_srgba) moved) :: undo_stack app) []
           (seq (List.length (lines app)) (List.length clipboard)),
         moved)).
Proof.
  split; [intros ->; reflexivity|].
  intros Hne moved. unfold paste, execute, apply_action.
  destruct clipboard as [|c0 cs] eqn:Hc; [contradiction|].
  cbv beta iota zeta. subst moved. set (k := c0 :: cs).
  cbn [lines undo_stack redo_stack selected_indices].
  rewrite map_map, length_app, !length_map.
  replace (List.length (lines app) + List.length k - List.length k)
    with (List.length (lines app)) by lia.
  replace (List.length (lines app) + List.length k - List.length (lines app))
    with (List.length k) by lia.
  reflexivity.
Qed.

Lemma paste_appends_and_selects_witness :
  [stroke 3] <> [] /\
  exists app', paste plain_to_srgba plain_from_rgba (app_of [stroke 0; stroke 1]) [stroke 3]
               = Some app' /\ selected_indices app'.1 = [2].
Proof.
  assert (Hne : [stroke 3] <> []) by discriminate.
  split; [exact Hne|].
  eexists. split.
  - exact (proj2 (paste_appends_and_selects plain_to_srgba plain_from_rgba
                    (app_of [stroke 0; stroke 1]) [stroke 3]) Hne).
  - reflexivity.
Defined.

(** Undoing right after a paste removes exactly the pasted strokes: the
    stroke list and the undo stack are those from before the paste, and the
    selection is cleared. *)
Theorem paste_then_undo to_srgba from_rgba (app : PaintApp) (clipboard : list Line) :
  clipboard <> [] ->
  exists app' clipboard' app'',
    paste to_srgba from_rgba app clipboard = Some (app', clipboard') /\
    undo from_rgba app' = Some app'' /\
    lines app'' = lines app /\ undo_stack app'' = undo_stack app /\
    selected_indices app'' = [].
Proof.
  intros Hne.
  pose proof (proj2 (paste_appends_and_selects to_srgba from_rgba app clipboard) Hne) as Hp.
  simpl in Hp. do 3 eexists. split; [exact Hp|].
  unfold undo. cbn -[sline_of_line line_of_sline translate_line].
  split; [reflexivity|]. cbn [lines undo_stack selected_indices].
  split; [|split; reflexivity].
  rewrite <- (length_map (line_of_sline from_rgba) (map (sline_of_line to_srgba) _)).
  rewrite map_map. apply iter_pop_app.
Qed.

Lemma paste_then_undo_witness :
  [stroke 3] <> [] /\
  exists app' clipboard' app'',
    paste plain_to_srgba plain_from_rgba (app_of [stroke 0]) [stroke 3] = Some (app', clipboard') /\
    undo plain_from_rgba app' = Some app'' /\ lines app'' = [stroke 0].
Proof.
  assert (Hne : [stroke 3] <> []) by discriminate.
  split; [exact Hne|].
  destruct (paste_then_undo plain_to_srgba plain_from_rgba (app_of [stroke 0]) [stroke 3] Hne)
    as (app' & clipboard' & app'' & Hp & Hu & Hl & _).
  exists app', clipboard', app''. split; [exact Hp|]. split; [exact Hu|]. exact Hl.
Defined.

Lemma omap_lookup_in_range (l : list Line) (sel : list nat) :
  (forall i, i ∈ sel -> i < List.length l) ->
  List.length (omap (fun i => l !! i) sel) = List.length sel /\
  (forall k i, sel !! k = Some i -> omap (fun i => l !! i) sel !! k = l !! i).
Proof.
  induction sel as [|i sel IH]; intros Hin; [split; [reflexivity|intros; discriminate]|].
  assert (Hi : i < List.length l) by (apply Hin; left).
  destruct (lookup_lt_is_Some_2 l i Hi) as [x Hx].
  destruct IH as [IHlen IHlook]; [intros j Hj; apply Hin; right; exact Hj|].
  cbn. rewrite Hx. split; [cbn; rewrite IHlen; reflexivity|].
  intros [|k] j Hk; cbn in Hk |- *.
  - injection Hk as <-. symmetry. exact Hx.
  - apply IHlook. exact Hk.
Qed.

(** Copying a selection whose indices all name strokes, then pasting, keeps
    every existing stroke in place and appends exactly one new stroke per
    selected index, in selection order: the new stroke for the [k]-th
    selected index is the selected stroke moved by (20, 20) and passed
    through its serialized form, and the selection becomes those new
    positions. *)
Theorem copy_then_paste to_srgba from_rgba (app : PaintApp) (clipboard : list Line) :
  selected_indices app <> [] ->
  (forall i, i ∈ selected_indices app -> i < List.length (lines app)) ->
  exists app' clipboard' added,
    paste to_srgba from_rgba app (copy_selected app clipboard) = Some (app', clipboard') /\
    lines app' = lines app ++ added /\
    List.length added = List.length (selected_indices app) /\
    selected_indices app' =
      seq (List.length (lines app)) (List.length (selected_indices app)) /\
    forall k i ln, selected_indices app !! k = Some i -> lines app !! i = Some ln ->
      added !! k =
      Some (line_of_sline from_rgba (sline_of_line to_srgba
              (translate_line pos_add_vec (f32_of_Z 20) (f32_of_Z 20) ln))).
Proof.
  intros Hne Hin.
  destruct (omap_lookup_in_range (lines app) (selected_indices app) Hin) as [Hlen Hlook].
  assert (Hcopy : copy_selected app clipboard = omap (fun i => lines app !! i) (selected_indices app)).
  { unfold copy_selected. destruct (selected_indices app); [contradiction|reflexivity]. }
  assert (Hcne : copy_selected app clipboard <> []).
  { rewrite Hcopy. intros Hnil. apply Hne. apply length_zero_iff_nil.
    rewrite <- Hlen, Hnil. reflexivity. }
  pose proof (proj2 (paste_appends_and_selects to_srgba from_rgba app _) Hcne) as Hp.
  simpl in Hp. do 3 eexists. split; [exact Hp|]. cbn [selected_indices lines].
  split; [reflexivity|].
  split; [rewrite !length_map, Hcopy, Hlen; reflexivity|].
  split; [rewrite Hcopy, Hlen; reflexivity|].
  intros k i ln Hk Hl.
  rewrite !list_lookup_fmap, Hcopy, (Hlook k i Hk), Hl. reflexivity.
Qed.

Lemma copy_then_paste_witness :
  [1] <> [] /\ (forall i, i ∈ [1] -> i < 2) /\
  exists app' clipboard',
    paste plain_to_srgba plain_from_rgba
      (mkPaintApp [stroke 0; stroke 1] [] [] [1])
      (copy_selected (mkPaintApp [stroke 0; stroke 1] [] [] [1]) []) = Some (app', clipboard') /\
    selected_indices app' = [2].
Proof.
  assert (Hne : [1] <> []) by discriminate.
  assert (Hin : forall i, i ∈ [1] -> i < 2)
    by (intros i Hi; apply list_elem_of_singleton in Hi; lia).
  split; [exact Hne|]. split; [exact Hin|].
  destruct (copy_then_paste plain_to_srgba plain_from_rgba
              (mkPaintApp [stroke 0; stroke 1] [] [] [1]) [] Hne Hin)
    as (app' & clipboard' & added & Hp & _ & _ & Hsel & _).
  exists app', clipboard'. split; [exact Hp|]. exact Hsel.
Defined.

(* ------------------------------------------------------------------ *)
(** ** Deleting the selection *)

Lemma omap_indexed_fst (l : list Line) (sel : list nat) :
  map fst (omap (fun i => (fun x => (i, x)) <$> l !! i) sel) =
  filter (fun i => i < List.length l) sel.
Proof.
  induction sel as [|i sel IH]; [reflexivity|].
  rewrite filter_cons. cbn.
  destruct (decide (i < List.length l)) as [Hi|Hi].
  - destruct (lookup_lt_is_Some_2 l i Hi) as [x Hx]. rewrite Hx. cbn. f_equal. exact IH.
  - rewrite (lookup_ge_None_2 l i) by lia. exact IH.
Qed.

Lemma omap_indexed_lookup (l : list Line) (sel : list nat) (p : nat * Line) :
  p ∈ omap (fun i => (fun x => (i, x)) <$> l !! i) sel -> l !! p.1 = Some p.2.
Proof.
  intros Hp. apply list_elem_of_omap in Hp as (i & _ & Hi).
  destruct (l !! i) as [x|] eqn:Hx; [|discriminate].
  injection Hi as <-. exact Hx.
Qed.

Lemma selection_indices (l : list Line) (sel : list nat) :
  let indexed := sort_by_idx (omap (fun i => (fun x => (i, x)) <$> l !! i) sel) in
  map fst indexed ≡ₚ filter (fun i => i < List.length l) sel /\
  Sorted le (map fst indexed) /\
  (forall p, p ∈ indexed -> l !! p.1 = Some p.2).
Proof.
  intros indexed. split; [|split].
  - rewrite <- omap_indexed_fst. apply Permutation_map, sort_by_idx_perm.
  - apply (Sorted_fmap fst (fun p q => p.1 <= q.1) le); [intros x y H; exact H|].
    apply sort_by_idx_sorted.
  - intros p Hp. apply omap_indexed_lookup with (sel := sel).
    unfold indexed in Hp. rewrite sort_by_idx_perm in Hp. exact Hp.
Qed.

Lemma delete_selected_unfold to_srgba from_rgba to_json send_error (app : PaintApp) (w : NetWorld) :
  selected_indices app <> [] ->
  delete_selected to_srgba from_rgba to_json send_error app w =
  let indexed := sort_by_idx (omap (fun i => (fun l => (i, l)) <$> lines app !! i)
                                   (selected_indices app)) in
  let indices := map fst indexed in
  let cache := map (fun p => sline_of_line to_srgba p.2) indexed in
  match execute from_rgba (Delete indices cache) app with
  | Some app1 =>
      let w1 := if connected (manager w)
                then (broadcast_message to_json send_error (DeleteMsg indices) w).2
                else w in
      Some (mkPaintApp (lines app1) (undo_stack app1) (redo_stack app1) [], w1)
  | None => None
  end.
Proof.
  intros Hne. unfold delete_selected.
  destruct (selected_indices app); [contradiction|reflexivity].
Qed.

(** [delete_selected] with a duplicate-free, non-empty selection removes
    exactly the selected strokes (selected indices past the end are
    ignored) and keeps the others in order; it records one Delete whose
    indices are the in-range selected ones in increasing order, clears the
    redo stack and the selection.  With an empty selection it does
    nothing. *)
Theorem delete_selected_removes_selection to_srgba from_rgba to_json send_error
    (app : PaintApp) (w : NetWorld) :
  (selected_indices app = [] ->
   delete_selected to_srgba from_rgba to_json send_error app w = Some (app, w)) /\
  (NoDup (selected_indices app) -> selected_indices app <> [] ->
   exists app' w' idxs cache,
     delete_selected to_srgba from_rgba to_json send_error app w = Some (app', w') /\
     lines app' = keep_from 0 (selected_indices app) (lines app) /\
     selected_indices app' = [] /\ redo_stack app' = [] /\
     undo_stack app' = Delete idxs cache :: undo_stack app /\
     Sorted le idxs /\ NoDup idxs /\
     (forall j, j ∈ idxs <-> j ∈ selected_indices app /\ j < List.length (lines app))).
Proof.
  split.
  - intros Hs. unfold delete_selected. rewrite Hs. reflexivity.
  - intros Hnd Hne.
    destruct (selection_indices (lines app) (selected_indices app)) as (Hperm & Hsort & _).
    set (indexed := sort_by_idx _) in Hperm, Hsort.
    assert (Hndi : NoDup (map fst indexed)) by (rewrite Hperm; apply NoDup_filter; exact Hnd).
    assert (Hmem : forall j, j ∈ map fst indexed <->
                             j ∈ selected_indices app /\ j < List.length (lines app)).
    { intros j. rewrite Hperm, list_elem_of_filter. tauto. }
    rewrite delete_selected_unfold by exact Hne.
    cbv beta zeta. fold indexed.
    unfold execute. rewrite apply_delete_keeps_unlisted by exact Hndi.
    do 4 eexists. split; [reflexivity|]. cbn [lines selected_indices redo_stack undo_stack].
    split.
    { apply keep_from_ext. intros j Hj. rewrite Hmem.
      split; [intros [Hjs _]; exact Hjs | intros Hjs; split; [exact Hjs | lia]]. }
    split; [reflexivity|]. split; [reflexivity|]. split; [reflexivity|].
    split; [exact Hsort|]. split; [exact Hndi|]. exact Hmem.
Qed.

Lemma delete_selected_removes_selection_witness :
  NoDup [2; 0] /\ [2; 0] <> [] /\
  exists app' w',
    delete_selected plain_to_srgba plain_from_rgba (fun _ => Ok ""%string) (fun _ _ _ => None)
      (mkPaintApp [stroke 0; stroke 1; stroke 2] [] [] [2; 0])
      (mkNetWorld NetworkManager_new []) = Some (app', w') /\
    lines app' = keep_from 0 [2; 0] [stroke 0; stroke 1; stroke 2].
Proof.
  assert (Hnd : NoDup [2; 0]) by (apply NoDup_ListNoDup; repeat constructor; simpl; intuition lia).
  assert (Hne : [2; 0] <> []) by discriminate.
  split; [exact Hnd|]. split; [exact Hne|].
  destruct (proj2 (delete_selected_removes_selection plain_to_srgba plain_from_rgba
                     (fun _ => Ok ""%string) (fun _ _ _ => None)
                     (mkPaintApp [stroke 0; stroke 1; stroke 2] [] [] [2; 0])
                     (mkNetWorld NetworkManager_new [])) Hnd Hne)
    as (app' & w' & idxs & cache & Hd & Hl & _).
  exists app', w'. split; [exact Hd|]. exact Hl.
Defined.

(** Undoing right after [delete_selected] (duplicate-free, non-empty
    selection) gives back the stroke list and the undo stack from before,
    provided each selected stroke survives its serialized form. *)
Theorem delete_selected_then_undo to_srgba from_rgba to_json send_error
    (app : PaintApp) (w : NetWorld) :
  NoDup (selected_indices app) -> selected_indices app <> [] ->
  (forall i ln, i ∈ selected_indices app -> lines app !! i = Some ln ->
                line_of_sline from_rgba (sline_of_line to_srgba ln) = ln) ->
  exists app' w' app'',
    delete_selected to_srgba from_rgba to_json send_error app w = Some (app', w') /\
    undo from_rgba app' = Some app'' /\
    lines app'' = lines app /\ undo_stack app'' = undo_stack app.
Proof.
  intros Hnd Hne Hrt.
  destruct (selection_indices (lines app) (selected_indices app)) as (Hperm & _ & Hpairs).
  set (indexed := sort_by_idx _) in Hperm, Hpairs.
  assert (Hndi : NoDup (map fst indexed)) by (rewrite Hperm; apply NoDup_filter; exact Hnd).
  rewrite delete_selected_unfold by exact Hne.
  cbv beta zeta. fold indexed. unfold execute. cbn [apply_action].
  do 3 eexists. split; [reflexivity|].
  unfold undo. cbn [undo_stack lines].
  rewrite delete_undo_restores.
  - split; [reflexivity|]. split; reflexivity.
  - exact Hndi.
  - rewrite !length_map. reflexivity.
  - intros k i c Hk Hc.
    rewrite list_lookup_fmap in Hk. rewrite list_lookup_fmap in Hc.
    destruct (indexed !! k) as [[j ln]|] eqn:Hp; [|discriminate].
    cbn in Hk, Hc. injection Hk as <-. injection Hc as <-.
    assert (Hin : (j, ln) ∈ indexed) by (apply list_elem_of_lookup; exists k; exact Hp).
    pose proof (Hpairs _ Hin) as Hl. cbn in Hl. rewrite Hl. f_equal. symmetry.
    apply (Hrt j); [|exact Hl].
    assert (Hj : j ∈ map fst indexed)
      by (apply list_elem_of_In, in_map_iff; exists (j, ln); split;
          [reflexivity | apply list_elem_of_In, Hin]).
    rewrite Hperm, list_elem_of_filter in Hj. apply Hj.
Qed.

Lemma delete_selected_then_undo_witness :
  NoDup [2; 0] /\ [2; 0] <> [] /\
  exists app' w' app'',
    delete_selected plain_to_srgba plain_from_rgba (fun _ => Ok ""%string) (fun _ _ _ => None)
      (mkPaintApp [stroke 0; stroke 1; stroke 2] [] [] [2; 0])
      (mkNetWorld NetworkManager_new []) = Some (app', w') /\
    undo plain_from_rgba app' = Some app'' /\ lines app'' = [stroke 0; stroke 1; stroke 2].
Proof.
  assert (Hnd : NoDup [2; 0]) by (apply NoDup_ListNoDup; repeat constructor; simpl; intuition lia).
  assert (Hne : [2; 0] <> []) by discriminate.
  split; [exact Hnd|]. split; [exact Hne|].
  destruct (delete_selected_then_undo plain_to_srgba plain_from_rgba
              (fun _ => Ok ""%string) (fun _ _ _ => None)
              (mkPaintApp [stroke 0; stroke 1; stroke 2] [] [] [2; 0])
              (mkNetWorld NetworkManager_new []) Hnd Hne)
    as (app' & w' & app'' & Hd & Hu & Hl & _).
  - intros i ln _ Hl. cbn in Hl.
    destruct i as [|[|[|i]]]; cbn in Hl; try discriminate;
      injection Hl as <-; vm_compute; reflexivity.
  - exists app', w', app''. split; [exact Hd|]. split; [exact Hu|]. exact Hl.
Defined.

(** [delete_selected] (non-empty selection) leaves the transport's state
    alone and, when connected with a sending socket and the
    [DrawingMessage::Delete] carrying the indices of the recorded Delete
    serializes, sends that message to 239.255.77.77:7878 from the sending
    socket: exactly one datagram when [send_to] succeeds, none when it
    fails.  When not connected the wire is unchanged. *)
Theorem delete_selected_broadcast to_srgba from_rgba to_json send_error
    (app : PaintApp) (w : NetWorld) :
  selected_indices app <> [] ->
  exists app' w' idxs cache,
    delete_selected to_srgba from_rgba to_json send_error app w = Some (app', w') /\
    undo_stack app' = Delete idxs cache :: undo_stack app /\
    manager w' = manager w /\
    (connected (manager w) = false -> wire w' = wire w) /\
    (forall s json, connected (manager w) = true -> sender (manager w) = Some s ->
       to_json (DeleteMsg idxs) = Ok json ->
       wire w' = match send_error s json "239.255.77.77:7878"%string with
                 | None => (s, json, "239.255.77.77:7878"%string) :: wire w
                 | Some _ => wire w
                 end).
Proof.
  intros Hne. rewrite delete_selected_unfold by exact Hne.
  cbv beta zeta. unfold execute. cbn [apply_action].
  do 4 eexists. split; [reflexivity|]. cbn [undo_stack]. split; [reflexivity|].
  destruct (connected (manager w)) eqn:Hc.
  - unfold broadcast_message. rewrite Hc. cbn [negb].
    destruct (sender (manager w)) as [s|] eqn:Hs.
    + destruct (to_json _) as [json|e] eqn:Hj.
      * change (MULTICAST_ADDR ++ ":" ++ MULTICAST_PORT)%string
          with "239.255.77.77:7878"%string.
        destruct (send_error s json _) eqn:Hse; cbn.
        -- split; [reflexivity|]. split; [discriminate|].
           intros s' json' _ Hs' Hj'.
           assert (s' = s) as -> by congruence. assert (json' = json) as -> by congruence.
           rewrite Hse. reflexivity.
        -- split; [reflexivity|]. split; [discriminate|].
           intros s' json' _ Hs' Hj'.
           assert (s' = s) as -> by congruence. assert (json' = json) as -> by congruence.
           rewrite Hse. reflexivity.
      * cbn. split; [reflexivity|]. split; [discriminate|].
        intros s' json' _ _ Hj'. congruence.
    + cbn. split; [reflexivity|]. split; [discriminate|].
      intros s' json' _ Hs' _. congruence.
  - split; [reflexivity|]. split; [reflexivity|]. intros; discriminate.
Qed.

Lemma delete_selected_broadcast_witness :
  [1] <> [] /\
  exists app' w',
    delete_selected plain_to_srgba plain_from_rgba (fun _ => Ok "msg"%string) (fun _ _ _ => None)
      (mkPaintApp [stroke 0; stroke 1] [] [] [1])
      (mkNetWorld (mkNetworkManager true 0 (Some 5) []) []) = Some (app', w') /\
    wire w' = [(5, "msg"%string, "239.255.77.77:7878"%string)].
Proof.
  assert (Hne : [1] <> []) by discriminate.
  split; [exact Hne|].
  destruct (delete_selected_broadcast plain_to_srgba plain_from_rgba
              (fun _ => Ok "msg"%string) (fun _ _ _ => None)
              (mkPaintApp [stroke 0; stroke 1] [] [] [1])
              (mkNetWorld (mkNetworkManager true 0 (Some 5) []) []) Hne)
    as (app' & w' & idxs & cache & Hd & _ & _ & _ & Hw).
  exists app', w'. split; [exact Hd|].
  exact (Hw 5 "msg"%string eq_refl eq_refl eq_refl).
Defined.

(** Undo and redo move one action between the two stacks: an [undo] on a
    non-empty history followed by a [redo] gives back both stacks (the
    selection stays cleared), and a [redo] followed by an [undo] gives back
    both stacks too. *)
Theorem undo_redo_stacks_inverse from_rgba (app app1 app2 : PaintApp) :
  (undo_stack app <> [] -> undo from_rgba app = Some app1 -> redo from_rgba app1 = Some app2 ->
   undo_stack app2 = undo_stack app /\ redo_stack app2 = redo_stack app /\
   selected_indices app2 = []) /\
  (redo_stack app <> [] -> redo from_rgba app = Some app1 -> undo from_rgba app1 = Some app2 ->
   undo_stack app2 = undo_stack app /\ redo_stack app2 = redo_stack app).
Proof.
  split.
  - intros Hne Hu Hr. unfold undo in Hu.
    destruct (undo_stack app) as [|a rest] eqn:Hs; [contradiction|].
    destruct (undo_action from_rgba a (lines app)) as [ls|]; [|discriminate].
    injection Hu as <-. unfold redo in Hr. cbn [redo_stack undo_stack lines] in Hr.
    destruct (apply_action from_rgba a ls) as [ls'|]; [|discriminate].
    injection Hr as <-. cbn. auto.
  - intros Hne Hr Hu. unfold redo in Hr.
    destruct (redo_stack app) as [|a rest] eqn:Hs; [contradiction|].
    destruct (apply_action from_rgba a (lines app)) as [ls|]; [|discriminate].
    injection Hr as <-. unfold undo in Hu. cbn [redo_stack undo_stack lines] in Hu.
    destruct (undo_action from_rgba a ls) as [ls'|]; [|discriminate].
    injection Hu as <-. cbn. auto.
Qed.

Lemma undo_redo_stacks_inverse_witness :
  exists app1 app2,
    undo plain_from_rgba (app_of [stroke 0; stroke 1]) = Some (app_of [stroke 0; stroke 1]) /\
    undo plain_from_rgba (mkPaintApp [stroke 0; stroke 1] [Create [sstroke 1]] [] [0%nat]) = Some app1 /\
    redo plain_from_rgba app1 = Some app2 /\
    undo_stack app2 = [Create [sstroke 1]] /\ redo_stack app2 = [] /\ selected_indices app2 = [].
Proof.
  set (app := mkPaintApp [stroke 0; stroke 1] [Create [sstroke 1]] [] [0%nat]).
  set (app1 := mkPaintApp [stroke 0] [] [Create [sstroke 1]] []).
  set (app2 := mkPaintApp [stroke 0; stroke 1] [Create [sstroke 1]] [] []).
  assert (Hu : undo plain_from_rgba app = Some app1) by (vm_compute; reflexivity).
  assert (Hr : redo plain_from_rgba app1 = Some app2) by (vm_compute; reflexivity).
  destruct (proj1 (undo_redo_stacks_inverse plain_from_rgba app app1 app2)
              ltac:(discriminate) Hu Hr) as (H1 & H2 & H3).
  exists app1, app2. split; [vm_compute; reflexivity|].
  split; [exact Hu|]. split; [exact Hr|]. split; [exact H1|]. split; [exact H2|]. exact H3.
Defined.

(** [connect] either succeeds or leaves the manager as it was.  On an already
    connected manager it returns [Ok] and changes nothing.  Otherwise, on
    success the manager is connected, sends from the socket bound first, and
    keeps its peer count and queued events; on any failure of the socket
    calls it returns the error and the manager is unchanged (still
    disconnected). *)
Theorem connect_outcome bind_sender bind_receiver set_nonblocking join_multicast_v4
    (m : NetworkManager) :
  let '(r, m') := connect bind_sender bind_receiver set_nonblocking join_multicast_v4 m in
  (r = Ok tt /\ connected m' = true /\ peer_count m' = peer_count m /\ events m' = events m /\
   (connected m = true -> m' = m) /\
   (connected m = false -> exists s, bind_sender = Ok s /\ sender m' = Some s))
  \/ (exists e, r = Err e /\ m' = m /\ connected m = false).
Proof.
  unfold connect. destruct (connected m) eqn:Hc.
  - left. split; [reflexivity|]. split; [exact Hc|].
    split; [reflexivity|]. split; [reflexivity|]. split; [reflexivity|discriminate].
  - destruct bind_sender as [s|e]; [|right; eauto].
    destruct (set_nonblocking s) as [[]|e]; [|right; eauto].
    destruct bind_receiver as [r|e]; [|right; eauto].
    destruct (join_multicast_v4 r) as [[]|e]; [|right; eauto].
    destruct (set_nonblocking r) as [[]|e]; [|right; eauto].
    left. cbn. split; [reflexivity|]. split; [reflexivity|].
    split; [reflexivity|]. split; [reflexivity|]. split; [discriminate|].
    intros _. exists s. split; reflexivity.
Qed.

(** Every operation on the transport keeps the fact that a connected manager
    has a sending socket: the new manager satisfies it, and [connect],
    [disconnect], [poll_events] and a turn of the listening thread preserve
    it, while [broadcast_message] leaves the manager untouched. *)
Theorem connected_has_sender bind_sender bind_receiver set_nonblocking join_multicast_v4
    to_json send_error from_slice :
  (connected NetworkManager_new = true -> sender NetworkManager_new <> None) /\
  forall m : NetworkManager, (connected m = true -> sender m <> None) ->
    let P (m' : NetworkManager) := connected m' = true -> sender m' <> None in
    P (connect bind_sender bind_receiver set_nonblocking join_multicast_v4 m).2 /\
    P (disconnect m) /\ P (poll_events m).2 /\
    (forall payload elapsed, P (receive_datagram from_slice payload elapsed m)) /\
    (forall msg wire,
       manager (broadcast_message to_json send_error msg (mkNetWorld m wire)).2 = m).
Proof.
  split; [discriminate|]. intros m Hm P.
  split; [|split; [|split; [|split]]]; unfold P.
  - unfold connect. destruct (connected m) eqn:Hc; [cbn [snd]; rewrite Hc; exact Hm|].
    destruct bind_sender as [s|e]; [|cbn [snd]; rewrite Hc; exact Hm].
    destruct (set_nonblocking s) as [[]|e]; [|cbn [snd]; rewrite Hc; exact Hm].
    destruct bind_receiver as [r|e]; [|cbn [snd]; rewrite Hc; exact Hm].
    destruct (join_multicast_v4 r) as [[]|e]; [|cbn [snd]; rewrite Hc; exact Hm].
    destruct (set_nonblocking r) as [[]|e]; [|cbn [snd]; rewrite Hc; exact Hm].
    intros _. discriminate.
  - discriminate.
  - exact Hm.
  - intros payload elapsed. unfold receive_datagram.
    destruct (from_slice payload); exact Hm.
  - intros msg wire. unfold broadcast_message. cbn [manager].
    destruct (negb (connected m)); [reflexivity|].
    destruct (sender m) as [s|]; [|reflexivity].
    destruct (to_json msg) as [json|e]; [|reflexivity].
    destruct (send_error _ _ _); reflexivity.
Qed.

Lemma connected_has_sender_witness :
  let m := mkNetworkManager true 2 (Some 4%nat) [] in
  (connected m = true -> sender m <> None) /\
  connected (disconnect m) = false /\
  manager (broadcast_message (fun _ => Ok "x"%string) (fun _ _ _ => None) Clear
             (mkNetWorld m [])).2 = m.
Proof.
  intros m.
  assert (Hm : connected m = true -> sender m <> None) by (intros _; discriminate).
  destruct (proj2 (connected_has_sender (Ok 1%nat) (Ok 2%nat) (fun _ => Ok tt) (fun _ => Ok tt)
                     (fun _ => Ok "x"%string) (fun _ _ _ => None) (fun _ => None)) m Hm)
    as (_ & _ & _ & _ & Hb).
  split; [exact Hm|]. split; [reflexivity|]. exact (Hb Clear []).
Defined.

(** Once [connect] has returned [Ok] (on a manager that, like every manager
    the code builds, has a sending socket when connected), a broadcast whose
    message serializes and whose send succeeds returns [Ok] and puts exactly
    one datagram, the serialized message addressed to 239.255.77.77:7878, on
    the wire. *)
Theorem connect_then_broadcast bind_sender bind_receiver set_nonblocking join_multicast_v4
    to_json send_error (m : NetworkManager) (ws : list Datagram) msg json :
  (connected m = true -> sender m <> None) ->
  fst (connect bind_sender bind_receiver set_nonblocking join_multicast_v4 m) = Ok tt ->
  to_json msg = Ok json ->
  (forall s, send_error s json "239.255.77.77:7878"%string = None) ->
  let m' := snd (connect bind_sender bind_receiver set_nonblocking join_multicast_v4 m) in
  exists s, sender m' = Some s /\
    broadcast_message to_json send_error msg (mkNetWorld m' ws)
    = (Ok tt, mkNetWorld m' ((s, json, "239.255.77.77:7878"%string) :: ws)).
Proof.
  intros Hm Hok Hj Hs m'.
  assert (Hc : connected m' = true /\ sender m' <> None).
  { unfold m'. revert Hok. unfold connect. destruct (connected m) eqn:Hc.
    - intros _. cbn [snd]. rewrite Hc. split; [reflexivity | exact (Hm eq_refl)].
    - destruct bind_sender as [s|e]; [|discriminate].
      destruct (set_nonblocking s) as [[]|e]; [|discriminate].
      destruct bind_receiver as [r|e]; [|discriminate].
      destruct (join_multicast_v4 r) as [[]|e]; [|discriminate].
      destruct (set_nonblocking r) as [[]|e]; [|discriminate].
      intros _. split; [reflexivity | discriminate]. }
  destruct Hc as [Hc Hsnd].
  destruct (sender m') as [s|] eqn:Hsm; [|contradiction].
  exists s. split; [reflexivity|].
  unfold broadcast_message. cbn [manager wire]. rewrite Hc, Hsm, Hj. cbn [negb].
  change (MULTICAST_ADDR ++ ":" ++ MULTICAST_PORT)%string with "239.255.77.77:7878"%string.
  rewrite Hs. reflexivity.
Qed.

Lemma connect_then_broadcast_witness :
  exists s,
    broadcast_message (fun _ => Ok "{}"%string) (fun _ _ _ => None) Clear
      (mkNetWorld (snd (connect (Ok 3%nat) (Ok 4%nat) (fun _ => Ok tt) (fun _ => Ok tt)
                          NetworkManager_new)) [])
    = (Ok tt, mkNetWorld (snd (connect (Ok 3%nat) (Ok 4%nat) (fun _ => Ok tt) (fun _ => Ok tt)
                                  NetworkManager_new))
                [(s, "{}"%string, "239.255.77.77:7878"%string)]).
Proof.
  destruct (connect_then_broadcast (Ok 3%nat) (Ok 4%nat) (fun _ => Ok tt) (fun _ => Ok tt)
              (fun _ => Ok "{}"%string) (fun _ _ _ => None) NetworkManager_new [] Clear "{}"%string
              ltac:(discriminate) eq_refl eq_refl (fun _ => eq_refl)) as (s & _ & Hb).
  exists s. exact Hb.
Defined.

(** The listening thread queues, in arrival order, one [MessageReceived] per
    datagram that parses as a [DrawingMessage] and drops the others;
    [poll_events] returns everything queued and empties the queue, so a
    second poll returns nothing.  Receiving never changes the connection
    flag or the sending socket. *)
Theorem receive_then_poll from_slice (ds : list (string * bool)) (m : NetworkManager) :
  let m' := fold_left (fun acc d => receive_datagram from_slice d.1 d.2 acc) ds m in
  (poll_events m').1 = events m ++ map MessageReceived (omap (fun d => from_slice d.1) ds) /\
  (poll_events (poll_events m').2).1 = [] /\
  connected m' = connected m /\ sender m' = sender m.
Proof.
  cbv zeta. revert m. induction ds as [|[p el] ds IH]; intros m.
  - cbn. split; [symmetry; apply List.app_nil_r|]. repeat split.
  - cbn [fold_left fst snd].
    destruct (IH (receive_datagram from_slice p el m)) as (H1 & H2 & H3 & H4).
    rewrite H1, H3, H4. split; [|split; [exact H2|]].
    + cbn [omap list_omap fst]. unfold receive_datagram.
      destruct (from_slice p) as [msg|]; cbn [events]; [|reflexivity].
      rewrite <- app_assoc. reflexivity.
    + unfold receive_datagram. destruct (from_slice p); split; reflexivity.
Qed.

(** [disconnect] does not stop the listening thread: a message received
    afterwards is still queued for [poll_events], after the ones queued
    before, and more than a second after the last check it sets the peer
    count back to 1 while the manager reports itself disconnected. *)
Theorem disconnect_keeps_listening from_slice payload msg (m : NetworkManager) :
  from_slice payload = Some msg ->
  let m' := receive_datagram from_slice payload true (disconnect m) in
  connected m' = false /\ sender m' = None /\ peer_count m' = 1%nat /\
  (poll_events m').1 = events m ++ [MessageReceived msg].
Proof.
  intros Hp. unfold receive_datagram, disconnect. rewrite Hp. cbn. auto.
Qed.

Lemma disconnect_keeps_listening_witness :
  let m' := receive_datagram (fun _ => Some Clear) "{}"%string true
              (disconnect (mkNetworkManager true 0 (Some 1%nat) [])) in
  peer_count m' = 1%nat /\ (poll_events m').1 = [MessageReceived Clear].
Proof.
  destruct (disconnect_keeps_listening (fun _ => Some Clear) "{}"%string Clear
              (mkNetworkManager true 0 (Some 1%nat) []) eq_refl) as (_ & _ & H3 & H4).
  split; [exact H3 | exact H4].
Defined.

(** A non-empty selection all of whose indices are past the end of the
    stroke list still goes through [execute]: [delete_selected] keeps every
    stroke but pushes an empty Delete onto the undo stack, empties the redo
    stack and the selection, and (when connected) broadcasts a Delete with
    no indices. *)
Theorem delete_selected_out_of_range to_srgba from_rgba to_json send_error
    (app : PaintApp) (w : NetWorld) :
  selected_indices app <> [] ->
  (forall i, i ∈ selected_indices app -> (List.length (lines app) <= i)%nat) ->
  delete_selected to_srgba from_rgba to_json send_error app w =
  Some (mkPaintApp (lines app) (Delete [] [] :: undo_stack app) [] [],
        if connected (manager w)
        then (broadcast_message to_json send_error (DeleteMsg []) w).2 else w).
Proof.
  intros Hne Hout.
  assert (Ho : omap (fun i => (fun x => (i, x)) <$> lines app !! i) (selected_indices app) = []).
  { induction (selected_indices app) as [|i sel IH]; [reflexivity|].
    cbn [omap list_omap].
    rewrite (lookup_ge_None_2 (lines app) i)
      by (apply Hout, elem_of_cons; left; reflexivity).
    cbn. destruct sel as [|j sel']; [reflexivity|].
    apply IH; [discriminate|].
    intros k Hk. apply Hout, elem_of_cons. right. exact Hk. }
  rewrite delete_selected_unfold by exact Hne. cbv zeta. rewrite Ho. reflexivity.
Qed.

Lemma delete_selected_out_of_range_witness :
  [5%nat; 9%nat] <> [] /\
  delete_selected plain_to_srgba plain_from_rgba (fun _ => Ok ""%string) (fun _ _ _ => None)
    (mkPaintApp [stroke 0] [] [Create [sstroke 1]] [5%nat; 9%nat])
    (mkNetWorld NetworkManager_new []) =
  Some (mkPaintApp [stroke 0] [Delete [] []] [] [], mkNetWorld NetworkManager_new []).
Proof.
  assert (Hne : [5%nat; 9%nat] <> []) by discriminate.
  split; [exact Hne|].
  exact (delete_selected_out_of_range plain_to_srgba plain_from_rgba (fun _ => Ok ""%string)
           (fun _ _ _ => None) (mkPaintApp [stroke 0] [] [Create [sstroke 1]] [5%nat; 9%nat])
           (mkNetWorld NetworkManager_new []) Hne
           (fun i Hi => ltac:(cbn; apply elem_of_cons in Hi as [->|Hi];
                               [lia | apply elem_of_cons in Hi as [->|Hi];
                                      [lia | apply elem_of_nil in Hi as []]]))).
Defined.
